(** * stub-index: declaration index, PSI tree, tree operations

    A shallow embedding of the C++ sources (stub_entry.h, stub_index.cpp,
    psi_node.{h,cpp}, psi_visitor.h, psi_tree_builder.cpp,
    psi_tree_operations.cpp, psi_tree_transformer.cpp) together with the
    properties the specification states about them.

    Conventions.
    - A pointer that may be null ([PSINode*], [std::shared_ptr<..>]) is an
      [option]; [None] is [nullptr].
    - Read-only traversals work on the tree as a value ([PSINode], a rose
      tree): the children vector is the ordered list of subtrees.
    - Operations that read or write the parent back-reference work on an
      explicit store of node cells addressed by pointers ([Heap]).
    - [int] is a 32-bit two's complement integer, written as a [Z] wrapped by
      [wrap_int]; [size_t] counts are [nat].
    - [double] is an arithmetic interface ([Scalar]), instantiated with
      IEEE binary64, every operation rounded to nearest, ties to even. *)

From Stdlib Require Import ZArith.
From Stdlib.Floats Require Import SpecFloat.
From stdpp Require Import gmap strings list fin_maps.

Local Open Scope string_scope.
Local Open Scope list_scope.
Local Open Scope Z_scope.

(* ********************************************************************* *)
(** * Part I: the program

    The data model and the operations, file by file. *)
(* ********************************************************************* *)

(* ===================================================================== *)
(** ** stub_entry.h *)
(* ===================================================================== *)

(** [enum class StubType] *)
Module StubType.
Inductive t := CLASS | FUNCTION | VARIABLE | NAMESPACE | ENUM | TYPEDEF.

#[global] Instance eq_dec : EqDecision t.
Proof. solve_decision. Defined.

Definition to_nat (x : t) : nat :=
  match x with
  | CLASS => 0 | FUNCTION => 1 | VARIABLE => 2
  | NAMESPACE => 3 | ENUM => 4 | TYPEDEF => 5
  end%nat.

Definition of_nat (n : nat) : option t :=
  match n with
  | 0 => Some CLASS | 1 => Some FUNCTION | 2 => Some VARIABLE
  | 3 => Some NAMESPACE | 4 => Some ENUM | 5 => Some TYPEDEF
  | _ => None
  end%nat.

#[global] Instance countable : Countable t.
Proof.
  refine (inj_countable to_nat of_nat _).
  intros []; reflexivity.
Defined.
End StubType.

(** [struct SourceLocation] *)
Record SourceLocation := mkSourceLocation {
  file_path : string;
  line : Z;
  column : Z
}.

#[global] Instance SourceLocation_eq_dec : EqDecision SourceLocation.
Proof. solve_decision. Defined.

(** [struct Parameter] of a function stub ([Parameter] is reserved) *)
Record StubParameter := mkStubParameter {
  param_type : string;
  param_name : string
}.

(** The class hierarchy below the abstract [StubEntry]: the base-class
    fields (name, location) come first, the kind tag is fixed by the
    constructor of each subclass. *)
Inductive StubEntry :=
| ClassStub (name : string) (loc : SourceLocation) (is_struct : bool)
| FunctionStub (name : string) (loc : SourceLocation)
               (return_type : string) (parameters : list StubParameter)
| VariableStub (name : string) (loc : SourceLocation)
               (var_type : string) (is_const is_static : bool).

Module Stub.
Definition getType (e : StubEntry) : StubType.t :=
  match e with
  | ClassStub _ _ _ => StubType.CLASS
  | FunctionStub _ _ _ _ => StubType.FUNCTION
  | VariableStub _ _ _ _ _ => StubType.VARIABLE
  end.

Definition getName (e : StubEntry) : string :=
  match e with
  | ClassStub n _ _ | FunctionStub n _ _ _ | VariableStub n _ _ _ _ => n
  end.

Definition getLocation (e : StubEntry) : SourceLocation :=
  match e with
  | ClassStub _ l _ | FunctionStub _ l _ _ | VariableStub _ l _ _ _ => l
  end.
End Stub.

(* ===================================================================== *)
(** ** stub_index.h, stub_index.cpp *)
(* ===================================================================== *)

(** [struct QueryFilter] *)
Record QueryFilter := mkQueryFilter {
  type_filter : StubType.t;
  name_pattern : string;
  file_pattern : string
}.

(** [class StubIndex]: the three index maps and the insertion list.  A
    [QueryResult] is its [entries] vector. *)
Record StubIndex := mkStubIndex {
  name_index_ : gmap string (list StubEntry);
  type_index_ : gmap StubType.t (list StubEntry);
  file_index_ : gmap string (list StubEntry);
  all_entries_ : list StubEntry
}.

Definition new_StubIndex : StubIndex := mkStubIndex ∅ ∅ ∅ [].

(** [index[key].push_back(entry)]: [operator[]] makes the empty bucket when
    the key is new. *)
Definition bucket_push `{Countable K} (key : K) (entry : StubEntry)
    (index : gmap K (list StubEntry)) : gmap K (list StubEntry) :=
  <[key := default [] (index !! key) ++ [entry]]> index.

(** [index.find(key)], the bucket or nothing *)
Definition bucket `{Countable K} (key : K)
    (index : gmap K (list StubEntry)) : list StubEntry :=
  match index !! key with
  | Some entries => entries
  | None => []
  end.

Definition addEntry (idx : StubIndex) (entry : option StubEntry)
    : StubIndex :=
  match entry with
  | None => idx
  | Some e =>
      mkStubIndex
        (bucket_push (Stub.getName e) e (name_index_ idx))
        (bucket_push (Stub.getType e) e (type_index_ idx))
        (bucket_push (file_path (Stub.getLocation e)) e (file_index_ idx))
        (all_entries_ idx ++ [e])
  end.

Definition queryByName (idx : StubIndex) (name : string) : list StubEntry :=
  bucket name (name_index_ idx).

Definition queryByType (idx : StubIndex) (type : StubType.t)
    : list StubEntry :=
  bucket type (type_index_ idx).

Definition queryByFile (idx : StubIndex) (path : string) : list StubEntry :=
  bucket path (file_index_ idx).

Definition getAllEntries (idx : StubIndex) : list StubEntry :=
  all_entries_ idx.

(** [std::string::find(pattern)]: the index of the first occurrence, or
    [npos] ([None]). *)
Fixpoint find_from (s pattern : string) (pos : nat) : option nat :=
  if String.prefix pattern s then Some pos
  else match s with
       | EmptyString => None
       | String _ s' => find_from s' pattern (S pos)
       end.

Definition string_find (s pattern : string) : option nat :=
  find_from s pattern 0.

Definition string_empty (s : string) : bool :=
  match s with EmptyString => true | _ => false end.

(** [StubIndex::query].  [continue] skips the entry, [addEntry] appends
    it to the result. *)
Definition query (idx : StubIndex) (filter : QueryFilter)
    : list StubEntry :=
  if negb (string_empty (name_pattern filter)) then
    let name_results := queryByName idx (name_pattern filter) in
    fold_left
      (fun result entry =>
         if bool_decide (type_filter filter <> StubType.TYPEDEF)
            && bool_decide (Stub.getType entry <> type_filter filter)
         then result
         else if negb (string_empty (file_pattern filter))
                 && bool_decide
                      (string_find (file_path (Stub.getLocation entry))
                                   (file_pattern filter) = None)
         then result
         else result ++ [entry])
      name_results []
  else if bool_decide (type_filter filter <> StubType.CLASS) then
    let type_results := queryByType idx (type_filter filter) in
    fold_left
      (fun result entry =>
         if negb (string_empty (file_pattern filter))
            && bool_decide
                 (string_find (file_path (Stub.getLocation entry))
                              (file_pattern filter) = None)
         then result
         else result ++ [entry])
      type_results []
  else if negb (string_empty (file_pattern filter)) then
    let file_results := queryByFile idx (file_pattern filter) in
    fold_left (fun result entry => result ++ [entry]) file_results []
  else all_entries_ idx.

(* ===================================================================== *)
(** ** psi_node.h, psi_node.cpp *)
(* ===================================================================== *)

(** [enum class PSINodeType] *)
Module PSINodeType.
Inductive t :=
| FILE | NAMESPACE | CLASS | STRUCT | FUNCTION | VARIABLE | ENUM | TYPEDEF
| COMPOUND_STATEMENT | IF_STATEMENT | FOR_STATEMENT | WHILE_STATEMENT
| RETURN_STATEMENT | EXPRESSION_STATEMENT | DECLARATION_STATEMENT
| BINARY_EXPRESSION | UNARY_EXPRESSION | CALL_EXPRESSION
| MEMBER_EXPRESSION | LITERAL_EXPRESSION | IDENTIFIER_EXPRESSION
| BUILTIN_TYPE | QUALIFIED_TYPE | POINTER_TYPE | REFERENCE_TYPE | ARRAY_TYPE
| COMMENT | PREPROCESSOR_DIRECTIVE | UNKNOWN.

#[global] Instance eq_dec : EqDecision t.
Proof. solve_decision. Defined.
End PSINodeType.

(** [PSINode::TextRange] *)
Record TextRange := mkTextRange {
  start_offset : nat;
  end_offset : nat
}.

(** [PSIFunctionNode::Parameter] *)
Record FunctionParameter := mkFunctionParameter {
  fp_type : string;
  fp_name : string;
  fp_default_value : string
}.

(** The dynamic class of a node object with the fields that class adds.
    [PSINodeBase] is a plain [PSINode], as made by
    [std::make_shared<PSINode>(...)]. *)
Inductive NodeClass :=
| PSINodeBase
| PSIFileNode (file_path_ content_ : string)
| PSINamespaceNode (name_ : string)
| PSIClassNode (name_ : string) (is_struct_ is_abstract_ : bool)
| PSIFunctionNode (name_ return_type_ : string)
                  (parameters_ : list FunctionParameter)
                  (is_virtual_ is_static_ is_const_ is_override_ : bool)
| PSIVariableNode (name_ var_type_ : string)
                  (is_const_ is_static_ is_member_ is_parameter_ : bool).

(** A node with the subtrees it owns.  The parent back-reference is not a
    field here: it is the position of the node in the tree.  The children
    vector never holds a null pointer ([addChild] drops one), so it is a list
    of nodes. *)
#[local] Unset Elimination Schemes.
Inductive PSINode := mkPSINode {
  node_class : NodeClass;
  type_ : PSINodeType.t;
  text_ : string;
  location_ : SourceLocation;
  text_range_ : TextRange;
  semantic_info_ : gmap string string;
  children_ : list PSINode
}.
#[local] Set Elimination Schemes.

Definition getType (n : PSINode) := type_ n.
Definition getText (n : PSINode) := text_ n.
Definition getLocation (n : PSINode) := location_ n.
Definition getChildren (n : PSINode) := children_ n.

(** [PSINode::PSINode(type, text, location)] *)
Definition new_PSINode (ty : PSINodeType.t) (tx : string)
    (l : SourceLocation) : PSINode :=
  mkPSINode PSINodeBase ty tx l (mkTextRange 0 0) ∅ [].

Definition with_children (n : PSINode) (ch : list PSINode) : PSINode :=
  mkPSINode (node_class n) (type_ n) (text_ n) (location_ n)
            (text_range_ n) (semantic_info_ n) ch.

(** [PSINode::addChild]: a null child is ignored, another one is appended
    (its parent becomes this node, which is its new position). *)
Definition addChild (n : PSINode) (child : option PSINode) : PSINode :=
  match child with
  | Some c => with_children n (children_ n ++ [c])
  | None => n
  end.

(** [PSINode::setSemanticInfo] *)
Definition setSemanticInfo (key value : string) (n : PSINode) : PSINode :=
  mkPSINode (node_class n) (type_ n) (text_ n) (location_ n)
            (text_range_ n) (<[key := value]> (semantic_info_ n))
            (children_ n).

(** [PSINode::getSemanticInfo(key)] *)
Definition getSemanticInfo (n : PSINode) (key : string) : string :=
  match semantic_info_ n !! key with
  | Some v => v
  | None => ""
  end.

(** [PSINode::hasSemanticInfo] *)
Definition hasSemanticInfo (n : PSINode) (key : string) : bool :=
  bool_decide (is_Some (semantic_info_ n !! key)).

(** [PSIFileNode::PSIFileNode(file_path, content)] *)
Definition new_PSIFileNode (path content : string) : PSINode :=
  mkPSINode (PSIFileNode path content) PSINodeType.FILE path
            (mkSourceLocation path 1 1)
            (mkTextRange 0 (String.length content)) ∅ [].

(** [PSIClassNode::PSIClassNode(name, location, is_struct)] *)
Definition new_PSIClassNode (name : string) (l : SourceLocation)
    (is_struct : bool) : PSINode :=
  mkPSINode (PSIClassNode name is_struct false)
            (if is_struct then PSINodeType.STRUCT else PSINodeType.CLASS)
            name l (mkTextRange 0 0) ∅ [].

(** [PSIFunctionNode::PSIFunctionNode(name, location, return_type)] *)
Definition new_PSIFunctionNode (name : string) (l : SourceLocation)
    (return_type : string) : PSINode :=
  mkPSINode (PSIFunctionNode name return_type [] false false false false)
            PSINodeType.FUNCTION name l (mkTextRange 0 0) ∅ [].

(** [PSIFunctionNode::addParameter(type, name)], default value [""] *)
Definition addParameter (type name : string) (n : PSINode) : PSINode :=
  match node_class n with
  | PSIFunctionNode fname ret params v st c o =>
      mkPSINode
        (PSIFunctionNode fname ret
           (params ++ [mkFunctionParameter type name ""]) v st c o)
        (type_ n) (text_ n) (location_ n) (text_range_ n)
        (semantic_info_ n) (children_ n)
  | _ => n
  end.

(** [PSIVariableNode::PSIVariableNode(name, location, var_type)] *)
Definition new_PSIVariableNode (name : string) (l : SourceLocation)
    (var_type : string) : PSINode :=
  mkPSINode (PSIVariableNode name var_type false false false false)
            PSINodeType.VARIABLE name l (mkTextRange 0 0) ∅ [].

(** [setConst] and [setStatic] of a variable node *)
Definition setConst (c : bool) (n : PSINode) : PSINode :=
  match node_class n with
  | PSIVariableNode name vt _ st m p =>
      mkPSINode (PSIVariableNode name vt c st m p)
        (type_ n) (text_ n) (location_ n) (text_range_ n)
        (semantic_info_ n) (children_ n)
  | _ => n
  end.

Definition setStatic (st : bool) (n : PSINode) : PSINode :=
  match node_class n with
  | PSIVariableNode name vt c _ m p =>
      mkPSINode (PSIVariableNode name vt c st m p)
        (type_ n) (text_ n) (location_ n) (text_range_ n)
        (semantic_info_ n) (children_ n)
  | _ => n
  end.

(* ===================================================================== *)
(** ** psi_tree_operations.cpp: PSITreeOperations *)
(* ===================================================================== *)

(** 32-bit [int] arithmetic: the value of a sum is reduced to the
    two's complement range. *)
Definition wrap_int (z : Z) : Z := (z + 2 ^ 31) mod 2 ^ 32 - 2 ^ 31.

(** The private collectors take the result vector by reference; here the
    vector goes in and comes out.  [push_back] is [++ [x]].  Each collector
    is written for a node that exists first (the recursion over the children)
    and then for a pointer (the null test). *)

Fixpoint collectNodesByType_at (node : PSINode) (type : PSINodeType.t)
    (result : list PSINode) {struct node} : list PSINode :=
  let result :=
    if decide (getType node = type) then result ++ [node] else result in
  (fix loop (cs : list PSINode) (result : list PSINode) : list PSINode :=
     match cs with
     | [] => result
     | child :: cs' => loop cs' (collectNodesByType_at child type result)
     end) (children_ node) result.

Definition collectNodesByType (node : option PSINode) (type : PSINodeType.t)
    (result : list PSINode) : list PSINode :=
  match node with
  | None => result
  | Some n => collectNodesByType_at n type result
  end.

Fixpoint collectNodesByCondition_at (node : PSINode)
    (condition : PSINode -> bool) (result : list PSINode) {struct node}
    : list PSINode :=
  let result := if condition node then result ++ [node] else result in
  (fix loop (cs : list PSINode) (result : list PSINode) : list PSINode :=
     match cs with
     | [] => result
     | child :: cs' =>
         loop cs' (collectNodesByCondition_at child condition result)
     end) (children_ node) result.

Definition collectNodesByCondition (node : option PSINode)
    (condition : PSINode -> bool) (result : list PSINode) : list PSINode :=
  match node with
  | None => result
  | Some n => collectNodesByCondition_at n condition result
  end.

Fixpoint collectDescendants_at (node : PSINode) (result : list PSINode)
    {struct node} : list PSINode :=
  (fix loop (cs : list PSINode) (result : list PSINode) : list PSINode :=
     match cs with
     | [] => result
     | child :: cs' =>
         loop cs' (collectDescendants_at child (result ++ [child]))
     end) (children_ node) result.

Definition collectDescendants (node : option PSINode)
    (result : list PSINode) : list PSINode :=
  match node with
  | None => result
  | Some n => collectDescendants_at n result
  end.

Fixpoint calculateDepth_at (node : PSINode) : Z :=
  match children_ node with
  | [] => 1
  | _ =>
      let max_depth :=
        (fix loop (cs : list PSINode) (max_depth : Z) : Z :=
           match cs with
           | [] => max_depth
           | child :: cs' =>
               loop cs' (Z.max max_depth (calculateDepth_at child))
           end) (children_ node) 0 in
      wrap_int (max_depth + 1)
  end.

Definition calculateDepth (node : option PSINode) : Z :=
  match node with
  | None => 1
  | Some n => calculateDepth_at n
  end.

Fixpoint calculateSubtreeSize_at (node : PSINode) : Z :=
  (fix loop (cs : list PSINode) (size : Z) : Z :=
     match cs with
     | [] => size
     | child :: cs' =>
         loop cs' (wrap_int (size + calculateSubtreeSize_at child))
     end) (children_ node) 1.

Definition calculateSubtreeSize (node : option PSINode) : Z :=
  match node with
  | None => 0
  | Some n => calculateSubtreeSize_at n
  end.

Fixpoint collectLeafNodes_at (node : PSINode) (result : list PSINode)
    {struct node} : list PSINode :=
  match children_ node with
  | [] => result ++ [node]
  | _ =>
      (fix loop (cs : list PSINode) (result : list PSINode) : list PSINode :=
         match cs with
         | [] => result
         | child :: cs' => loop cs' (collectLeafNodes_at child result)
         end) (children_ node) result
  end.

Definition collectLeafNodes (node : option PSINode)
    (result : list PSINode) : list PSINode :=
  match node with
  | None => result
  | Some n => collectLeafNodes_at n result
  end.

Fixpoint collectBranchNodes_at (node : PSINode) (result : list PSINode)
    {struct node} : list PSINode :=
  match children_ node with
  | [] => result
  | _ =>
      (fix loop (cs : list PSINode) (result : list PSINode) : list PSINode :=
         match cs with
         | [] => result
         | child :: cs' => loop cs' (collectBranchNodes_at child result)
         end) (children_ node) (result ++ [node])
  end.

Definition collectBranchNodes (node : option PSINode)
    (result : list PSINode) : list PSINode :=
  match node with
  | None => result
  | Some n => collectBranchNodes_at n result
  end.

(** The public operations. *)

Definition findAllNodes (root : option PSINode) (type : PSINodeType.t)
    : list PSINode :=
  collectNodesByType root type [].

Definition findNodesByCondition (root : option PSINode)
    (condition : PSINode -> bool) : list PSINode :=
  collectNodesByCondition root condition [].

Definition findNodesByName (root : option PSINode) (name : string)
    : list PSINode :=
  findNodesByCondition root (fun node => bool_decide (getText node = name)).

Definition findFirstNodeByName (root : option PSINode) (name : string)
    : option PSINode :=
  match findNodesByName root name with
  | [] => None
  | n :: _ => Some n
  end.

Definition findNodesInFile (root : option PSINode) (path : string)
    : list PSINode :=
  findNodesByCondition root
    (fun node => bool_decide (file_path (getLocation node) = path)).

Definition findNodesInLineRange (root : option PSINode)
    (start_line end_line : Z) : list PSINode :=
  findNodesByCondition root
    (fun node =>
       let l := line (getLocation node) in
       (start_line <=? l) && (l <=? end_line)).

Definition getAllDescendants (node : option PSINode) : list PSINode :=
  collectDescendants node [].

Definition getTreeDepth (root : option PSINode) : Z := calculateDepth root.

Definition getSubtreeSize (node : option PSINode) : Z :=
  calculateSubtreeSize node.

Definition getLeafNodes (root : option PSINode) : list PSINode :=
  collectLeafNodes root [].

Definition getBranchNodes (root : option PSINode) : list PSINode :=
  collectBranchNodes root [].

(** [findDifferences] *)
Definition findDifferences (tree1 tree2 : option PSINode) : list PSINode :=
  match tree1, tree2 with
  | Some _, Some _ =>
      let nodes1 := getAllDescendants tree1 in
      let nodes2 := getAllDescendants tree2 in
      fold_left
        (fun differences node1 =>
           let found :=
             existsb
               (fun node2 =>
                  bool_decide (getType node1 = getType node2)
                  && bool_decide (getText node1 = getText node2))
               nodes2 in
           if found then differences else differences ++ [node1])
        nodes1 []
  | _, _ => []
  end.

(** [cloneSubtree] *)
Fixpoint cloneSubtree_at (root : PSINode) : option PSINode :=
  let clone := new_PSINode (getType root) (getText root) (getLocation root) in
  Some
    ((fix loop (cs : list PSINode) (clone : PSINode) : PSINode :=
        match cs with
        | [] => clone
        | child :: cs' =>
            let child_clone := cloneSubtree_at child in
            loop cs'
              (match child_clone with
               | Some _ => addChild clone child_clone
               | None => clone
               end)
        end) (children_ root) clone).

Definition cloneSubtree (root : option PSINode) : option PSINode :=
  match root with
  | None => None
  | Some r => cloneSubtree_at r
  end.

(** *** Similarity *)



Section Similarity.
Context {R : Type} `{Scalar R}.




End Similarity.



(* ===================================================================== *)
(** ** psi_tree_operations.cpp: PSITreeQuery *)
(* ===================================================================== *)

(** The query object: the root and the filters collected so far.
    [isRoot] tests the parent back-reference and is not part of this
    value-level model. *)
Record PSITreeQuery := mkPSITreeQuery {
  root_ : option PSINode;
  filters_ : list (PSINode -> bool)
}.

Definition new_PSITreeQuery (root : option PSINode) : PSITreeQuery :=
  mkPSITreeQuery root [].

Definition push_filter (q : PSITreeQuery) (f : PSINode -> bool)
    : PSITreeQuery :=
  mkPSITreeQuery (root_ q) (filters_ q ++ [f]).

Definition ofType (type : PSINodeType.t) (q : PSITreeQuery) :=
  push_filter q (fun node => bool_decide (getType node = type)).

Definition withName (name : string) (q : PSITreeQuery) :=
  push_filter q (fun node => bool_decide (getText node = name)).

Definition inFile (path : string) (q : PSITreeQuery) :=
  push_filter q
    (fun node => bool_decide (file_path (getLocation node) = path)).

Definition inLineRange (start end_ : Z) (q : PSITreeQuery) :=
  push_filter q
    (fun node =>
       let l := line (getLocation node) in (start <=? l) && (l <=? end_)).

Definition withSemanticInfo (key value : string) (q : PSITreeQuery) :=
  push_filter q
    (fun node => bool_decide (getSemanticInfo node key = value)).

Definition isLeaf (q : PSITreeQuery) :=
  push_filter q
    (fun node => match getChildren node with [] => true | _ => false end).

(** [matchesFilters]: the first filter that fails ends the loop. *)
Definition matchesFilters (q : PSITreeQuery) (node : PSINode) : bool :=
  (fix loop (fs : list (PSINode -> bool)) : bool :=
     match fs with
     | [] => true
     | filter :: fs' => if filter node then loop fs' else false
     end) (filters_ q).

Definition execute (q : PSITreeQuery) : list PSINode :=
  match root_ q with
  | None => []
  | Some _ => findNodesByCondition (root_ q) (matchesFilters q)
  end.

Definition first (q : PSITreeQuery) : option PSINode :=
  match execute q with
  | [] => None
  | n :: _ => Some n
  end.

Definition count (q : PSITreeQuery) : nat := length (execute q).

(* ===================================================================== *)
(** ** Nodes as objects: parent pointers and mutation *)
(* ===================================================================== *)

(** [getAncestors], [removeNode] and the mutators of [PSINode] follow and
    assign the parent back-reference and edit children vectors in place.
    Here a node is a cell in a store, a [PSINode*] is an address or null, a
    children vector is a list of addresses.  In [removeNode] and the
    mutators of [PSINode] releasing a [shared_ptr] frees nothing: a removed
    node stays readable, as it is for a caller that still holds a reference
    to it.  [moveNode] goes on to use the node it has removed, so there the
    owners are counted: the call takes the set of nodes that a [shared_ptr]
    outside the tree holds. *)
Module Mem.

Definition addr := nat.

Record Cell := mkCell {
  type_ : PSINodeType.t;
  text_ : string;
  parent_ : option addr;
  children_ : list addr
}.

Abbreviation Heap := (gmap addr Cell).

(** What a call does: it returns, or it dereferences a null or dangling
    pointer (or edits a vector it is iterating), or the loop budget of the
    model ran out. *)
Inductive outcome (A : Type) :=
| Returns (a : A)
| Undefined
| OutOfFuel.
Arguments Returns {A} a.
Arguments Undefined {A}.
Arguments OutOfFuel {A}.

#[global] Instance outcome_bind : MBind outcome := fun A B k m =>
  match m with
  | Returns a => k a
  | Undefined => Undefined
  | OutOfFuel => OutOfFuel
  end.

(** [*p] for a pointer [p] *)
Definition deref (h : Heap) (p : option addr) : outcome Cell :=
  match p with
  | None => Undefined
  | Some a => match h !! a with Some c => Returns c | None => Undefined end
  end.

Definition getParent (h : Heap) (p : option addr) : outcome (option addr) :=
  c ← deref h p; Returns (parent_ c).

Definition getChildren (h : Heap) (p : option addr) : outcome (list addr) :=
  c ← deref h p; Returns (children_ c).

Definition set_parent (c : Cell) (parent : option addr) : Cell :=
  mkCell (type_ c) (text_ c) parent (children_ c).

Definition set_children (c : Cell) (children : list addr) : Cell :=
  mkCell (type_ c) (text_ c) (parent_ c) children.

(** [p->setParent(parent)] *)
Definition setParent (h : Heap) (p : option addr) (parent : option addr)
    : outcome Heap :=
  match p with
  | None => Undefined
  | Some a =>
      match h !! a with
      | Some c => Returns (<[a := set_parent c parent]> h)
      | None => Undefined
      end
  end.

(** [p->children_.push_back(child)] *)
Definition push_back_child (h : Heap) (p : option addr) (child : addr)
    : outcome Heap :=
  match p with
  | None => Undefined
  | Some a =>
      match h !! a with
      | Some c => Returns (<[a := set_children c (children_ c ++ [child])]> h)
      | None => Undefined
      end
  end.

(** [PSINode::addChild] *)
Definition addChild (h : Heap) (this : addr) (child : option addr)
    : outcome Heap :=
  match child with
  | Some c =>
      h1 ← setParent h child (Some this);
      push_back_child h1 (Some this) c
  | None => Returns h
  end.

(** [PSINode::removeChild(index)] *)
Definition removeChild (h : Heap) (this : addr) (index : nat)
    : outcome Heap :=
  c ← deref h (Some this);
  match children_ c !! index with
  | Some child =>
      h1 ← setParent h (Some child) None;
      c1 ← deref h1 (Some this);
      Returns (<[this := set_children c1 (delete index (children_ c1))]> h1)
  | None => Returns h
  end.


(** [getAncestors]: the loop follows parent pointers until null. *)
Fixpoint getAncestors_loop (fuel : nat) (h : Heap) (current : option addr)
    (ancestors : list addr) : outcome (list addr) :=
  match current with
  | None => Returns ancestors
  | Some a =>
      match fuel with
      | O => OutOfFuel
      | S fuel' =>
          next ← getParent h current;
          getAncestors_loop fuel' h next (ancestors ++ [a])
      end
  end.

Definition getAncestors (fuel : nat) (h : Heap) (node : option addr)
    : outcome (list addr) :=
  current ← getParent h node;
  ancestors ← getAncestors_loop fuel h current [];
  Returns (reverse ancestors).

(** [std::find_if] with pointer equality, then [erase]: the first
    occurrence goes, the rest stays. *)
Fixpoint erase_first (node : addr) (children : list addr) : list addr :=
  match children with
  | [] => []
  | c :: cs => if decide (c = node) then cs else c :: erase_first node cs
  end.

(** [removeNode].  The loop over the node's children pushes onto the
    parent's vector; were that the same vector (a node that is its own
    parent) the iteration would be invalid. *)
Definition removeNode (h : Heap) (node : option addr) (keep_children : bool)
    : outcome Heap :=
  match node with
  | None => Returns h
  | Some n =>
      parent ← getParent h node;
      match parent with
      | None => Returns h
      | Some p =>
          h1 ←
            (if keep_children then
               cs ← getChildren h node;
               match cs with
               | [] => Returns h
               | _ =>
                   if decide (p = n) then Undefined
                   else
                     (fix loop (cs : list addr) (h : Heap) : outcome Heap :=
                        match cs with
                        | [] => Returns h
                        | child :: cs' =>
                            h' ← setParent h (Some child) parent;
                            h'' ← push_back_child h' parent child;
                            loop cs' h''
                        end) cs h
               end
             else Returns h);
          pc ← deref h1 parent;
          Returns (<[p := set_children pc (erase_first n (children_ pc))]> h1)
      end
  end.

(** The [shared_ptr]s to a node: the entries of children vectors that
    point to it, and one more when the node is in [held], the nodes that
    somebody outside the tree holds a [shared_ptr] to. *)
Definition occurrences (h : Heap) (a : addr) : nat :=
  sum_list_with
    (fun entry : addr * Cell =>
       length (filter (fun x => x = a) (children_ (snd entry))))
    (map_to_list h).

Definition use_count (h : Heap) (held : gset addr) (a : addr) : nat :=
  ((if decide (a ∈ held) then 1 else 0) + occurrences h a)%nat.

(** Whether the [erase] in [removeNode(node, false)] destroys the node:
    the parent lists it and that entry is the only [shared_ptr] to it. *)
Definition erase_frees (h : Heap) (held : gset addr) (node : addr) : bool :=
  match h !! node with
  | Some c =>
      match parent_ c with
      | Some p =>
          match h !! p with
          | Some pc =>
              bool_decide (node ∈ children_ pc)
              && bool_decide (use_count h held node = 1%nat)
          | None => false
          end
      | None => false
      end
  | None => false
  end.

(** [moveNode].  [shared_node] is made from the raw pointer after
    [removeNode] has returned, with a deleter that does nothing; when the
    erase has destroyed the node, [addChild] calls [setParent] on the
    destroyed object.  The entry that [addChild] puts into the new
    parent's children does not own the node: [held] and [occurrences]
    describe the owners before the call. *)
Definition moveNode (h : Heap) (held : gset addr)
    (node new_parent : option addr) : outcome Heap :=
  match node, new_parent with
  | Some n, Some np =>
      h1 ← removeNode h node false;
      if erase_frees h held n then Undefined else addChild h1 np node
  | _, _ => Returns h
  end.

End Mem.

(* ===================================================================== *)
(** ** psi_tree_transformer.cpp *)
(* ===================================================================== *)

(** [transformNode] for a node that exists.  The transformer is a function
    of the node (with the subtree it owns) that answers with a replacement
    or with null. *)
Fixpoint transformNode_at (node : PSINode)
    (transformer : PSINode -> option PSINode) {struct node}
    : option PSINode :=
  match transformer node with
  | None => None
  | Some transformed_node =>
      Some
        ((fix loop (cs : list PSINode) (transformed_node : PSINode)
            : PSINode :=
            match cs with
            | [] => transformed_node
            | child :: cs' =>
                let transformed_child := transformNode_at child transformer in
                loop cs'
                  (match transformed_child with
                   | Some _ => addChild transformed_node transformed_child
                   | None => transformed_node
                   end)
            end) (children_ node) transformed_node)
  end.

Definition transformNode (node : option PSINode)
    (transformer : PSINode -> option PSINode) : option PSINode :=
  match node with
  | None => None
  | Some n => transformNode_at n transformer
  end.

Definition transformTree (root : option PSINode)
    (transformer : PSINode -> option PSINode) : option PSINode :=
  match root with
  | None => None
  | Some _ => transformNode root transformer
  end.

(** [simplifyTree] *)
Definition simplifyTree (root : option PSINode) : option PSINode :=
  transformTree root
    (fun node =>
       match getType node with
       | PSINodeType.FILE | PSINodeType.CLASS
       | PSINodeType.FUNCTION | PSINodeType.VARIABLE =>
           Some (new_PSINode (getType node) (getText node) (getLocation node))
       | _ => None
       end).

(** The loop [for (const auto& [key, value] : node->getSemanticInfo())
    new_node->setSemanticInfo(key, value)] on a fresh node: the map is
    copied. *)
Definition copy_with_semantic_info (node : PSINode) : PSINode :=
  mkPSINode PSINodeBase (getType node) (getText node) (getLocation node)
            (mkTextRange 0 0) (semantic_info_ node) [].

(** [removeNodesByType] *)
Definition removeNodesByType (root : option PSINode)
    (type_to_remove : PSINodeType.t) : option PSINode :=
  transformTree root
    (fun node =>
       if decide (getType node = type_to_remove) then None
       else Some (copy_with_semantic_info node)).

(* ===================================================================== *)
(** ** psi_visitor.h *)
(* ===================================================================== *)

(** A visitor class over a state [S] (the data members of the visitor
    object): one body per virtual method.  A body gets, as its first
    argument, the implementation of the base class [PSIVisitor] applied to
    the same node, which an override may run ([PSIVisitor::visitFile(node)])
    or not.  [visit_method] is the body of the virtual [visit(PSINode* node)],
    whose argument may be null. *)
Record VisitorClass (S : Type) := mkVisitorClass {
  visit_method : (S -> S) -> option PSINode -> S -> S;
  visitFile : (S -> S) -> PSINode -> S -> S;
  visitNamespace : (S -> S) -> PSINode -> S -> S;
  visitClass : (S -> S) -> PSINode -> S -> S;
  visitFunction : (S -> S) -> PSINode -> S -> S;
  visitVariable : (S -> S) -> PSINode -> S -> S;
  visitNode : (S -> S) -> PSINode -> S -> S
}.
Arguments visit_method {S} _ _ _ _.
Arguments visitFile {S} _ _ _ _.
Arguments visitNamespace {S} _ _ _ _.
Arguments visitClass {S} _ _ _ _.
Arguments visitFunction {S} _ _ _ _.
Arguments visitVariable {S} _ _ _ _.
Arguments visitNode {S} _ _ _ _.

(** The class [PSIVisitor] itself: nothing is overridden. *)
Definition PSIVisitor (S : Type) : VisitorClass S :=
  mkVisitorClass S
    (fun base _ => base)
    (fun base _ => base) (fun base _ => base) (fun base _ => base)
    (fun base _ => base) (fun base _ => base) (fun base _ => base).

Section Visit.
Context {S : Type} (v : VisitorClass S).

(** [node->accept(this)]:
    - [PSINode::accept] has an empty body;
    - the [accept] of each subclass calls its method of the visitor;
    - [PSIVisitor::visitFile] and the like call [visitNode(node)], a
      virtual call;
    - [PSIVisitor::visitNode] calls [visit(child.get())] on the children
      in order, a virtual call too: the visitor's own [visit] runs, and the
      base implementation it is handed is [child->accept(this)]. *)
Fixpoint accept (node : PSINode) (s : S) {struct node} : S :=
  let PSIVisitor_visitNode : S -> S :=
    (fix loop (cs : list PSINode) (s : S) : S :=
       match cs with
       | [] => s
       | child :: cs' =>
           loop cs' (visit_method v (accept child) (Some child) s)
       end) (children_ node) in
  let PSIVisitor_visitKind : S -> S := visitNode v PSIVisitor_visitNode node in
  match node_class node with
  | PSINodeBase => s
  | PSIFileNode _ _ => visitFile v PSIVisitor_visitKind node s
  | PSINamespaceNode _ => visitNamespace v PSIVisitor_visitKind node s
  | PSIClassNode _ _ _ => visitClass v PSIVisitor_visitKind node s
  | PSIFunctionNode _ _ _ _ _ _ _ => visitFunction v PSIVisitor_visitKind node s
  | PSIVariableNode _ _ _ _ _ _ => visitVariable v PSIVisitor_visitKind node s
  end.

(** [PSIVisitor::visit(node)]: [if (node) node->accept(this)]. *)
Definition PSIVisitor_visit (node : option PSINode) (s : S) : S :=
  match node with
  | Some n => accept n s
  | None => s
  end.

(** The call [visitor->visit(node)]. *)
Definition visit (node : option PSINode) (s : S) : S :=
  visit_method v (PSIVisitor_visit node) node s.

(** [PSIVisitor::visitNode(node)]: the loop over the children. *)
Definition visit_children (node : PSINode) (s : S) : S :=
  fold_left (fun s child => visit (Some child) s) (children_ node) s.

End Visit.

(** [StatisticsVisitor].  Its data members are fifteen [int] counters;
    here the object is the function from the member to its value. *)
Inductive StatisticsCounter :=
| total_node_count_ | file_count_ | namespace_count_ | class_count_
| struct_count_ | abstract_class_count_ | function_count_
| virtual_function_count_ | static_function_count_ | const_function_count_
| variable_count_ | const_variable_count_ | static_variable_count_
| member_variable_count_ | parameter_count_.

#[global] Instance StatisticsCounter_eq_dec : EqDecision StatisticsCounter.
Proof. solve_decision. Defined.

Definition Statistics := StatisticsCounter -> Z.

(** The member initialisers [= 0]. *)
Definition new_StatisticsVisitor : Statistics := fun _ => 0.

(** [counter++] *)
Definition incr (counter : StatisticsCounter) (s : Statistics)
    : Statistics :=
  fun c => if decide (c = counter) then wrap_int (s c + 1) else s c.

(** [if (flag) counter++] *)
Definition incr_if (flag : bool) (counter : StatisticsCounter)
    (s : Statistics) : Statistics :=
  if flag then incr counter s else s.

Definition StatisticsVisitor : VisitorClass Statistics :=
  mkVisitorClass Statistics
    (* visit: not overridden *)
    (fun base _ => base)
    (* visitFile *)
    (fun base node s => base (incr file_count_ s))
    (* visitNamespace *)
    (fun base node s => base (incr namespace_count_ s))
    (* visitClass *)
    (fun base node s =>
       match node_class node with
       | PSIClassNode _ is_struct is_abstract =>
           base (incr_if is_abstract abstract_class_count_
                   (incr_if is_struct struct_count_ (incr class_count_ s)))
       | _ => base (incr class_count_ s)
       end)
    (* visitFunction *)
    (fun base node s =>
       match node_class node with
       | PSIFunctionNode _ _ _ is_virtual is_static is_const _ =>
           base (incr_if is_const const_function_count_
                   (incr_if is_static static_function_count_
                      (incr_if is_virtual virtual_function_count_
                         (incr function_count_ s))))
       | _ => base (incr function_count_ s)
       end)
    (* visitVariable *)
    (fun base node s =>
       match node_class node with
       | PSIVariableNode _ _ is_const is_static is_member is_parameter =>
           base (incr_if is_parameter parameter_count_
                   (incr_if is_member member_variable_count_
                      (incr_if is_static static_variable_count_
                         (incr_if is_const const_variable_count_
                            (incr variable_count_ s)))))
       | _ => base (incr variable_count_ s)
       end)
    (* visitNode *)
    (fun base node s => base (incr total_node_count_ s)).

(** [CollectVisitor<PSINode>]: its [visit(PSINode* node)] overrides the virtual
    [visit]; the state is the vector [collected_nodes_], into which the
    pointer goes as it is, null or not. *)
Definition CollectVisitor : VisitorClass (list (option PSINode)) :=
  mkVisitorClass (list (option PSINode))
    (* visit *)
    (fun base node collected_nodes_ => base (collected_nodes_ ++ [node]))
    (fun base _ => base) (fun base _ => base) (fun base _ => base)
    (fun base _ => base) (fun base _ => base) (fun base _ => base).

(** [FindVisitor<PSINode>]: the state is [found_node_]; on a match the
    node is stored and [visit] returns without going into it. *)
Definition FindVisitor (predicate_ : option PSINode -> bool)
    : VisitorClass (option PSINode) :=
  mkVisitorClass (option PSINode)
    (* visit *)
    (fun base node found_node_ =>
       if predicate_ node then node else base found_node_)
    (fun base _ => base) (fun base _ => base) (fun base _ => base)
    (fun base _ => base) (fun base _ => base) (fun base _ => base).

(* ===================================================================== *)
(** ** psi_tree_builder.cpp *)
(* ===================================================================== *)

(** The three factories [static_cast] the entry to the stub class they
    expect.  They are only called on an entry whose kind tag says it is of
    that class; for another entry the cast has no meaning and the factory
    has no result here. *)
Definition createClassNode (entry : StubEntry) : option PSINode :=
  match entry with
  | ClassStub _ _ is_struct =>
      let node :=
        new_PSIClassNode (Stub.getName entry) (Stub.getLocation entry)
                         is_struct in
      Some (setSemanticInfo "stub_id" (Stub.getName entry) node)
  | _ => None
  end.

Definition createFunctionNode (entry : StubEntry) : option PSINode :=
  match entry with
  | FunctionStub _ _ return_type params =>
      let node :=
        new_PSIFunctionNode (Stub.getName entry) (Stub.getLocation entry)
                            return_type in
      let node :=
        fold_left
          (fun node param =>
             addParameter (param_type param) (param_name param) node)
          params node in
      Some (setSemanticInfo "stub_id" (Stub.getName entry) node)
  | _ => None
  end.

Definition createVariableNode (entry : StubEntry) : option PSINode :=
  match entry with
  | VariableStub _ _ var_type is_const is_static =>
      let node :=
        new_PSIVariableNode (Stub.getName entry) (Stub.getLocation entry)
                            var_type in
      let node := setConst is_const node in
      let node := setStatic is_static node in
      Some (setSemanticInfo "stub_id" (Stub.getName entry) node)
  | _ => None
  end.

(** One pass over the records: a child for every record of the kind. *)
Definition build_pass (kind : StubType.t)
    (create : StubEntry -> option PSINode)
    (parent : PSINode) (stubs : list StubEntry) : PSINode :=
  fold_left
    (fun parent stub =>
       if decide (Stub.getType stub = kind)
       then addChild parent (create stub)
       else parent)
    stubs parent.

Definition buildClassStructure := build_pass StubType.CLASS createClassNode.
Definition buildFunctionStructure :=
  build_pass StubType.FUNCTION createFunctionNode.
Definition buildVariableStructure :=
  build_pass StubType.VARIABLE createVariableNode.

Section Builder.

(** [StubParser::parseCode(code, file_path).getEntries()], the declaration
    extractor: any function from the text to an ordered list of records. *)
Variable parseCode : string -> string -> list StubEntry.

(** [buildTreeFromContent] *)
Definition buildTreeFromContent (path content : string) : PSINode :=
  let file_node := new_PSIFileNode path content in
  let stubs := parseCode content path in
  match stubs with
  | [] => file_node
  | _ =>
      let file_node := buildClassStructure file_node stubs in
      let file_node := buildFunctionStructure file_node stubs in
      buildVariableStructure file_node stubs
  end.

End Builder.

(* ===================================================================== *)
(** ** psi_node.cpp: the children of one node *)
(* ===================================================================== *)

(** [PSINode::getFirstChild], [PSINode::getLastChild] *)
Definition getFirstChild (n : PSINode) : option PSINode :=
  match children_ n with
  | [] => None
  | child :: _ => Some child
  end.

Definition getLastChild (n : PSINode) : option PSINode :=
  match children_ n with
  | [] => None
  | _ => last (children_ n)
  end.

(** [PSINode::findChildren] *)
Definition findChildren (n : PSINode) (type : PSINodeType.t)
    : list PSINode :=
  fold_left
    (fun result child =>
       if decide (getType child = type) then result ++ [child] else result)
    (children_ n) [].

(** [PSINode::findFirstChild]: the loop returns at the first match. *)
Definition findFirstChild (n : PSINode) (type : PSINodeType.t)
    : option PSINode :=
  (fix loop (cs : list PSINode) : option PSINode :=
     match cs with
     | [] => None
     | child :: cs' =>
         if decide (getType child = type) then Some child else loop cs'
     end) (children_ n).

(** [PSINode::findLastChild]: the same loop from [rbegin] to [rend]. *)
Definition findLastChild (n : PSINode) (type : PSINodeType.t)
    : option PSINode :=
  (fix loop (cs : list PSINode) : option PSINode :=
     match cs with
     | [] => None
     | child :: cs' =>
         if decide (getType child = type) then Some child else loop cs'
     end) (reverse (children_ n)).

(* ===================================================================== *)
(** ** psi_tree_operations.cpp: grouping, paths *)
(* ===================================================================== *)

(** [groups[key]++] on an [unordered_map<string, size_t>]: a new key
    starts at zero. *)
Definition group_incr (key : string) (groups : gmap string nat)
    : gmap string nat :=
  <[key := S (default 0%nat (groups !! key))]> groups.

(** The label [groupByType] gives a node. *)
Definition group_type_name (node : PSINode) : string :=
  match getType node with
  | PSINodeType.CLASS => "Class"
  | PSINodeType.FUNCTION => "Function"
  | PSINodeType.VARIABLE => "Variable"
  | PSINodeType.NAMESPACE => "Namespace"
  | _ => "Unknown"
  end.

(** [PSITreeQuery::groupByType] *)
Definition groupByType (q : PSITreeQuery) : gmap string nat :=
  fold_left (fun groups node => group_incr (group_type_name node) groups)
            (execute q) ∅.

(** [PSITreeQuery::groupByName] *)
Definition groupByName (q : PSITreeQuery) : gmap string nat :=
  fold_left (fun groups node => group_incr (getText node) groups)
            (execute q) ∅.

(** The characters ['/'] and ['\n']. *)
Definition slash : Ascii.ascii := Ascii.ascii_of_nat 47.
Definition newline : Ascii.ascii := Ascii.ascii_of_nat 10.

(** The loop [while (std::getline(ss, part, '/')) if (!part.empty())
    parts.push_back(part)]: the maximal runs of characters other than
    ['/'], in order.  [part] is the run being read. *)
Fixpoint split_path (path : string) (part : string) (parts : list string)
    : list string :=
  match path with
  | EmptyString =>
      if string_empty part then parts else parts ++ [part]
  | String c path' =>
      if Ascii.eqb c slash
      then split_path path' ""
             (if string_empty part then parts else parts ++ [part])
      else split_path path' (part +:+ String c "") parts
  end.

(** The inner loop of [findNodeByPath]: the first child with the text. *)
Definition child_by_text (node : PSINode) (part : string)
    : option PSINode :=
  (fix loop (cs : list PSINode) : option PSINode :=
     match cs with
     | [] => None
     | child :: cs' =>
         if decide (getText child = part) then Some child else loop cs'
     end) (children_ node).

(** [findNodeByPath].  With a null root the first part dereferences
    [current]. *)
Definition findNodeByPath (root : option PSINode) (path : string)
    : Mem.outcome (option PSINode) :=
  let parts := split_path path "" [] in
  (fix loop (parts : list string) (current : option PSINode)
     : Mem.outcome (option PSINode) :=
     match parts with
     | [] => Mem.Returns current
     | part :: parts' =>
         match current with
         | None => Mem.Undefined
         | Some node =>
             match child_by_text node part with
             | Some child => loop parts' (Some child)
             | None => Mem.Returns None
             end
         end
     end) parts root.

(* ===================================================================== *)
(** ** psi_node.cpp, psi_tree_operations.cpp: siblings, ancestors, paths
       and validation on node objects *)
(* ===================================================================== *)

Module Nav.
Import Mem.

(** What [std::find_if] leaves to [getNextSibling]: the element after the
    first occurrence, if there is one. *)
Fixpoint next_after (this : addr) (siblings : list addr) : option addr :=
  match siblings with
  | [] => None
  | x :: rest =>
      if decide (x = this)
      then match rest with [] => None | y :: _ => Some y end
      else next_after this rest
  end.

(** And to [getPrevSibling]: the element before the first occurrence;
    [prev] is the element just passed. *)
Fixpoint prev_before (this : addr) (prev : option addr)
    (siblings : list addr) : option addr :=
  match siblings with
  | [] => None
  | x :: rest =>
      if decide (x = this) then prev else prev_before this (Some x) rest
  end.

(** [PSINode::getNextSibling] *)
Definition getNextSibling (h : Heap) (this : addr) : outcome (option addr) :=
  c ← deref h (Some this);
  match parent_ c with
  | None => Returns None
  | Some _ =>
      siblings ← getChildren h (parent_ c);
      Returns (next_after this siblings)
  end.

(** [PSINode::getPrevSibling] *)
Definition getPrevSibling (h : Heap) (this : addr) : outcome (option addr) :=
  c ← deref h (Some this);
  match parent_ c with
  | None => Returns None
  | Some _ =>
      siblings ← getChildren h (parent_ c);
      Returns (prev_before this None siblings)
  end.

(** The loop of [findCommonAncestor] over the two ancestor vectors. *)
Fixpoint common_loop (ancestors1 ancestors2 : list addr)
    (common : option addr) : option addr :=
  match ancestors1, ancestors2 with
  | a1 :: rest1, a2 :: rest2 =>
      if decide (a1 = a2) then common_loop rest1 rest2 (Some a1) else common
  | _, _ => common
  end.

(** [findCommonAncestor] *)
Definition findCommonAncestor (fuel : nat) (h : Heap)
    (node1 node2 : option addr) : outcome (option addr) :=
  ancestors1 ← getAncestors fuel h node1;
  ancestors2 ← getAncestors fuel h node2;
  Returns (common_loop ancestors1 ancestors2 None).

(** [buildNodePath]: the path of the parent, a slash, the text. *)
Fixpoint buildNodePath (fuel : nat) (h : Heap) (node : option addr)
    (path : string) : outcome string :=
  match node with
  | None => Returns path
  | Some _ =>
      match fuel with
      | O => OutOfFuel
      | S fuel' =>
          c ← deref h node;
          path ← match parent_ c with
                  | Some _ =>
                      path ← buildNodePath fuel' h (parent_ c) path;
                      Returns (path +:+ "/")
                  | None => Returns path
                  end;
          Returns (path +:+ text_ c)
      end
  end.

(** [getNodePath] *)
Definition getNodePath (fuel : nat) (h : Heap) (node : option addr)
    : outcome string :=
  buildNodePath fuel h node "".




End Nav.

(* ===================================================================== *)
(** ** psi_tree_transformer.cpp: the other transforms *)
(* ===================================================================== *)

(** [cloneAndSimplify] *)
Fixpoint cloneAndSimplify_at (node : PSINode) : option PSINode :=
  let clone := copy_with_semantic_info node in
  Some
    ((fix loop (cs : list PSINode) (clone : PSINode) : PSINode :=
        match cs with
        | [] => clone
        | child :: cs' =>
            let cloned_child := cloneAndSimplify_at child in
            loop cs'
              (match cloned_child with
               | Some _ => addChild clone cloned_child
               | None => clone
               end)
        end) (children_ node) clone).

Definition cloneAndSimplify (node : option PSINode) : option PSINode :=
  match node with
  | None => None
  | Some n => cloneAndSimplify_at n
  end.

(** [reorganizeByNamespace] *)
Definition reorganizeByNamespace (root : option PSINode)
    : option PSINode :=
  transformTree root (fun node => Some (copy_with_semantic_info node)).

(** [flattenHierarchy]; the lambda captures [max_depth] and does not use
    it. *)
Definition flattenHierarchy (root : option PSINode) (max_depth : Z)
    : option PSINode :=
  transformTree root (fun node => Some (copy_with_semantic_info node)).

(** [mergeTrees] *)
Definition mergeTrees (trees : list (option PSINode)) : option PSINode :=
  match trees with
  | [] => None
  | _ =>
      let merged_root :=
        new_PSINode PSINodeType.FILE "merged"
                    (mkSourceLocation "merged" 0 0) in
      Some
        (fold_left
           (fun merged_root tree =>
              match tree with
              | Some t =>
                  fold_left
                    (fun merged_root child =>
                       let cloned_child := cloneAndSimplify (Some child) in
                       match cloned_child with
                       | Some _ => addChild merged_root cloned_child
                       | None => merged_root
                       end)
                    (children_ t) merged_root
              | None => merged_root
              end)
           trees merged_root)
  end.

(** [overlayTrees] *)
Definition overlayTrees (base_tree overlay_tree : option PSINode)
    : option PSINode :=
  match base_tree with
  | None => None
  | Some _ =>
      match overlay_tree with
      | None => cloneAndSimplify base_tree
      | Some _ =>
          transformTree base_tree
            (fun node => Some (copy_with_semantic_info node))
      end
  end.

(** [shouldKeepNode] *)
Definition shouldKeepNode (node : PSINode) (type_to_remove : PSINodeType.t)
    : bool :=
  bool_decide (getType node <> type_to_remove).

(* ===================================================================== *)
(** ** stub_index.cpp: size and clear; stub_parser.cpp: line numbers *)
(* ===================================================================== *)

(** [StubIndex::clear], [StubIndex::size], [StubIndex::empty] *)
Definition clear (idx : StubIndex) : StubIndex := mkStubIndex ∅ ∅ ∅ [].

Definition size (idx : StubIndex) : nat := length (all_entries_ idx).

Definition empty (idx : StubIndex) : bool :=
  match all_entries_ idx with [] => true | _ => false end.

(** [StubParser::getLineNumber]: a position at or past the end gives
    line 1; otherwise the characters before the position are scanned. *)
Definition getLineNumber (code : string) (pos : nat) : Z :=
  if decide (String.length code <= pos)%nat then 1
  else
    (fix loop (s : string) (i : nat) (line : Z) : Z :=
       match i, s with
       | S i', String c s' =>
           loop s' i'
             (if Ascii.eqb c newline then wrap_int (line + 1) else line)
       | _, _ => line
       end) code pos 1.

(** [StatisticsVisitor::reset] assigns zero to all fifteen counters. *)
Definition reset (s : Statistics) : Statistics := fun _ => 0.

(* ********************************************************************* *)
(** * Part II: the vocabulary of the properties

    Traversal order, positions, what a tree contains, the behaviour the
    specification words describe, and the sample inputs. *)
(* ********************************************************************* *)

(* ===================================================================== *)
(** ** Order, labels, positions *)
(* ===================================================================== *)

(** The nodes of a subtree, root first, then the subtrees of the children
    from left to right.  Every collector above walks the tree in this
    order; the lemmas below say so. *)
Fixpoint preorder (n : PSINode) : list PSINode :=
  n :: flat_map preorder (children_ n).

(** The strict descendants of a node in the same order. *)
Definition descendants (n : PSINode) : list PSINode :=
  flat_map preorder (children_ n).

(** What [cloneSubtree] builds for a node that exists: a plain node with
    the type, text and location of the original over the clones of its
    children. *)
Fixpoint clone_of (n : PSINode) : PSINode :=
  mkPSINode PSINodeBase (type_ n) (text_ n) (location_ n)
            (mkTextRange 0 0) ∅ (List.map clone_of (children_ n)).

(** The (kind, text) pair of a node. *)
Definition kind_text (n : PSINode) : PSINodeType.t * string :=
  (getType n, getText n).

(** The test of the inner loop of [findDifferences]. *)
Definition same_kind_text (node1 node2 : PSINode) : bool :=
  bool_decide (getType node1 = getType node2)
  && bool_decide (getText node1 = getText node2).

(** The node reached from [root] by a path of child indices. *)
Fixpoint node_at (root : PSINode) (path : list nat) : option PSINode :=
  match path with
  | [] => Some root
  | i :: path' =>
      match children_ root !! i with
      | Some child => node_at child path'
      | None => None
      end
  end.

(** The paths into a list of children, the first of them at index [i],
    given the paths into each child. *)
Definition paths_below (paths_of : PSINode -> list (list nat))
    : nat -> list PSINode -> list (list nat) :=
  fix below (i : nat) (cs : list PSINode) : list (list nat) :=
    match cs with
    | [] => []
    | child :: cs' =>
        List.map (cons i) (paths_of child) ++ below (S i) cs'
    end.

(** The positions that are kept, in the words of the specification: a node is
    dropped with everything below it when it has no replacement, and its
    children are looked at, one after the other, when it has one.  Listed
    in pre-order. *)
Fixpoint survivor_paths (transformer : PSINode -> option PSINode)
    (node : PSINode) {struct node} : list (list nat) :=
  match transformer node with
  | None => []
  | Some _ =>
      [] :: paths_below (survivor_paths transformer) 0 (children_ node)
  end.

(** A node without its children, and the pre-order sequence of these for
    a tree: what a tree contains, position by position. *)
Definition shallow (n : PSINode) : PSINode := with_children n [].

Definition contents (n : PSINode) : list PSINode :=
  List.map shallow (preorder n).

Definition contents_opt (n : option PSINode) : list PSINode :=
  match n with
  | Some n => contents n
  | None => []
  end.

(** What the replacement of the node at a position brings into the
    output: the replacement with what it already owned. *)
Definition brought (transformer : PSINode -> option PSINode)
    (root : PSINode) (path : list nat) : list PSINode :=
  contents_opt (node_at root path ≫= transformer).

(* ===================================================================== *)
(** ** Records of a kind; the query precedence as the specification words it *)
(* ===================================================================== *)

(** The records of one kind, in their order in the list. *)
Definition of_kind (kind : StubType.t) (stubs : list StubEntry)
    : list StubEntry :=
  List.filter (fun stub => bool_decide (Stub.getType stub = kind)) stubs.

(** A child node made for a record: the node class of the record's kind,
    the record's name as text, and the semantic-info entry [stub_id]. *)
Definition made_for (stub : StubEntry) (child : PSINode) : Prop :=
  getSemanticInfo child "stub_id" = Stub.getName stub
  /\ getText child = Stub.getName stub
  /\ getLocation child = Stub.getLocation stub
  /\ children_ child = []
  /\ match Stub.getType stub with
     | StubType.CLASS =>
         (exists n s a, node_class child = PSIClassNode n s a)
         /\ (getType child = PSINodeType.CLASS
             \/ getType child = PSINodeType.STRUCT)
     | StubType.FUNCTION =>
         (exists n r p v s c o,
             node_class child = PSIFunctionNode n r p v s c o)
         /\ getType child = PSINodeType.FUNCTION
     | StubType.VARIABLE =>
         (exists n t c s m p, node_class child = PSIVariableNode n t c s m p)
         /\ getType child = PSINodeType.VARIABLE
     | _ => False
     end.

(** [pattern] occurs in [s] as a substring: [find] does not answer
    [npos]. *)
Definition contains (s pattern : string) : bool :=
  bool_decide (string_find s pattern <> None).

(** The precedence, with the kind that stands for "no kind filter" in the
    look-up by name and the one that does in the look-up by kind. *)
Definition query_by_precedence (any_kind_by_name any_kind_by_kind : StubType.t)
    (idx : StubIndex) (filter : QueryFilter) : list StubEntry :=
  if decide (name_pattern filter <> "") then
    List.filter
      (fun entry =>
         (bool_decide (type_filter filter = any_kind_by_name)
          || bool_decide (Stub.getType entry = type_filter filter))
         && contains (file_path (Stub.getLocation entry))
                     (file_pattern filter))
      (queryByName idx (name_pattern filter))
  else if decide (type_filter filter <> any_kind_by_kind) then
    List.filter
      (fun entry =>
         contains (file_path (Stub.getLocation entry)) (file_pattern filter))
      (queryByType idx (type_filter filter))
  else if decide (file_pattern filter <> "") then
    queryByFile idx (file_pattern filter)
  else all_entries_ idx.

(** The store after a sequence of [addEntry] calls on a new index. *)
Definition index_of (entries : list (option StubEntry)) : StubIndex :=
  fold_left addEntry entries new_StubIndex.

(** Every bucket holds the records with its key, in insertion order. *)
Definition indexed (idx : StubIndex) : Prop :=
  (forall name,
      queryByName idx name
      = List.filter (fun e => bool_decide (Stub.getName e = name))
          (all_entries_ idx))
  /\ (forall type,
        queryByType idx type
        = List.filter (fun e => bool_decide (Stub.getType e = type))
            (all_entries_ idx))
  /\ (forall path,
        queryByFile idx path
        = List.filter
            (fun e => bool_decide (file_path (Stub.getLocation e) = path))
            (all_entries_ idx)).

(* ===================================================================== *)
(** ** Sample inputs *)
(* ===================================================================== *)

Definition C10_sample_node : PSINode :=
  new_PSINode PSINodeType.CLASS "Widget" (mkSourceLocation "w.cpp" 3 1).

Definition C9_tree_a : PSINode :=
  new_PSINode PSINodeType.FILE "a.cpp" (mkSourceLocation "a.cpp" 1 1).

Definition C9_tree_b : PSINode :=
  new_PSINode PSINodeType.FILE "b.cpp" (mkSourceLocation "b.cpp" 1 1).

(** A file node 0 with one child, the namespace node 1, which has the two
    children 2 and 3. *)
Definition C3_heap : Mem.Heap :=
  {[ 0%nat := Mem.mkCell PSINodeType.FILE "root.cpp" None [1%nat];
     1%nat := Mem.mkCell PSINodeType.NAMESPACE "ns" (Some 0%nat)
                [2%nat; 3%nat];
     2%nat := Mem.mkCell PSINodeType.CLASS "A" (Some 1%nat) [];
     3%nat := Mem.mkCell PSINodeType.FUNCTION "f" (Some 1%nat) [] ]}.




Definition C6_tree : PSINode :=
  let l := mkSourceLocation "t.cpp" 1 1 in
  with_children (new_PSINode PSINodeType.FILE "t.cpp" l)
    [ with_children (new_PSINode PSINodeType.NAMESPACE "ns" l)
        [ new_PSINode PSINodeType.CLASS "Inner" l ];
      new_PSINode PSINodeType.FUNCTION "main" l ].

(** A file node with one class in it, and what [cloneSubtree] makes of
    it: the same tree of plain nodes. *)
Definition C7_file_tree : PSINode :=
  addChild (new_PSIFileNode "shapes.cpp" "class Shape {};")
    (Some (new_PSIClassNode "Shape" (mkSourceLocation "shapes.cpp" 1 1)
             false)).

Definition C7_plain_tree : PSINode := clone_of C7_file_tree.

(* ===================================================================== *)
(** ** Further vocabulary: heights, counts, path strings *)
(* ===================================================================== *)

(** The number of levels of a tree. *)
Fixpoint height (n : PSINode) : nat :=
  S (foldr Nat.max 0%nat (List.map height (children_ n))).

(** A node without children. *)
Definition is_leaf (n : PSINode) : bool :=
  match children_ n with [] => true | _ => false end.

(** The condition every node meets. *)
Definition any_node : PSINode -> bool := fun _ => true.

(** How many nodes of a list a labelling sends to a label. *)
Definition label_count (label : PSINode -> string) (key : string)
    (nodes : list PSINode) : nat :=
  length (List.filter (fun n => bool_decide (label n = key)) nodes).


(** The parts of a path written with one ['/'] between them. *)
Fixpoint join_path (parts : list string) : string :=
  match parts with
  | [] => ""
  | [part] => part
  | part :: parts' => part +:+ String slash (join_path parts')
  end.


(** What [cloneAndSimplify] builds for a node that exists: a plain node
    with the type, text, location and semantic info of the original over
    the same of its children. *)
Fixpoint semantic_clone_of (n : PSINode) : PSINode :=
  mkPSINode PSINodeBase (type_ n) (text_ n) (location_ n)
            (mkTextRange 0 0) (semantic_info_ n)
            (List.map semantic_clone_of (children_ n)).

(** A node object of the base class with the text range of a new node. *)
Definition plain (n : PSINode) : Prop :=
  node_class n = PSINodeBase /\ text_range_ n = mkTextRange 0 0.

(** The transformer of [removeNodesByType]. *)
Definition remove_transformer (type_to_remove : PSINodeType.t)
    (node : PSINode) : option PSINode :=
  if decide (getType node = type_to_remove) then None
  else Some (copy_with_semantic_info node).

(** The kinds [simplifyTree] keeps. *)
Definition simplify_keeps (type : PSINodeType.t) : bool :=
  match type with
  | PSINodeType.FILE | PSINodeType.CLASS
  | PSINodeType.FUNCTION | PSINodeType.VARIABLE => true
  | _ => false
  end.

(** The children one input tree brings into [mergeTrees]: none for a null
    tree. *)
Definition children_of_opt (tree : option PSINode) : list PSINode :=
  match tree with
  | Some t => children_ t
  | None => []
  end.

(** The nodes [visit] reaches from a node: a node object of the base
    class stops the traversal, so neither it nor anything below it is
    reached. *)
Fixpoint reached (n : PSINode) : list PSINode :=
  match node_class n with
  | PSINodeBase => []
  | _ => n :: flat_map reached (children_ n)
  end.

(** Whether a node is one that a counter of [StatisticsVisitor] is for. *)
Definition tallies (counter : StatisticsCounter) (node : PSINode) : bool :=
  match node_class node, counter with
  | PSINodeBase, _ => false
  | _, total_node_count_ => true
  | PSIFileNode _ _, file_count_ => true
  | PSINamespaceNode _, namespace_count_ => true
  | PSIClassNode _ _ _, class_count_ => true
  | PSIClassNode _ is_struct _, struct_count_ => is_struct
  | PSIClassNode _ _ is_abstract, abstract_class_count_ => is_abstract
  | PSIFunctionNode _ _ _ _ _ _ _, function_count_ => true
  | PSIFunctionNode _ _ _ is_virtual _ _ _, virtual_function_count_ =>
      is_virtual
  | PSIFunctionNode _ _ _ _ is_static _ _, static_function_count_ =>
      is_static
  | PSIFunctionNode _ _ _ _ _ is_const _, const_function_count_ => is_const
  | PSIVariableNode _ _ _ _ _ _, variable_count_ => true
  | PSIVariableNode _ _ is_const _ _ _, const_variable_count_ => is_const
  | PSIVariableNode _ _ _ is_static _ _, static_variable_count_ => is_static
  | PSIVariableNode _ _ _ _ is_member _, member_variable_count_ => is_member
  | PSIVariableNode _ _ _ _ _ is_parameter, parameter_count_ => is_parameter
  | _, _ => false
  end.

(** The number of line feeds among the first [pos] characters. *)
Definition newlines_before (code : string) (pos : nat) : nat :=
  length (List.filter (Ascii.eqb newline)
            (take pos (String.list_ascii_of_string code))).

(** The text of the node object at an address. *)
Definition text_at (h : Mem.Heap) (a : Mem.addr) : string :=
  default "" (Mem.text_ <$> h !! a).

(** A subtree of node objects in which every child names its parent: the
    node exists, each entry of its children vector exists and has the node
    as parent, and the same holds below each child. *)
#[local] Unset Elimination Schemes.
#[local] Set Elimination Schemes.

(* ********************************************************************* *)
(** * Part III: the properties

    Lemmas on each component, then the theorem of each claim. *)
(* ********************************************************************* *)

(* ===================================================================== *)
(** ** Induction on trees; traversal order *)
(* ===================================================================== *)

(** Induction over a tree with the hypothesis for every child. *)
Lemma PSINode_tree_ind (P : PSINode -> Prop) :
  (forall c ty tx l r s ch,
      Forall P ch -> P (mkPSINode c ty tx l r s ch)) ->
  forall n, P n.
Proof.
  intros step.
  fix IH 1.
  intros [c ty tx l r s ch].
  apply step.
  induction ch as [|x xs IHxs]; constructor.
  - apply IH.
  - exact IHxs.
Qed.

Lemma preorder_unfold n : preorder n = n :: descendants n.
Proof. destruct n; reflexivity. Qed.

Lemma collectNodesByCondition_at_spec (condition : PSINode -> bool) n :
  forall result,
    collectNodesByCondition_at n condition result
    = result ++ List.filter condition (preorder n).
Proof.
  induction n as [c ty tx l r s ch IH] using PSINode_tree_ind.
  intros result. cbn [collectNodesByCondition_at children_ preorder].
  set (node := mkPSINode c ty tx l r s ch).
  cbn [List.filter].
  assert (Hloop : forall acc,
    (fix loop (cs : list PSINode) (result : list PSINode) : list PSINode :=
       match cs with
       | [] => result
       | child :: cs' =>
           loop cs' (collectNodesByCondition_at child condition result)
       end) ch acc
    = acc ++ List.filter condition (flat_map preorder ch)).
  { clear node. induction IH as [|x xs Hx _ IHxs]; intros acc.
    - cbn. now rewrite app_nil_r.
    - cbn [flat_map]. rewrite List.filter_app, Hx, IHxs.
      now rewrite app_assoc. }
  rewrite Hloop.
  destruct (condition node); [now rewrite <- app_assoc | reflexivity].
Qed.

Lemma findNodesByCondition_spec condition n :
  findNodesByCondition (Some n) condition
  = List.filter condition (preorder n).
Proof.
  unfold findNodesByCondition, collectNodesByCondition.
  now rewrite collectNodesByCondition_at_spec.
Qed.

Lemma collectDescendants_at_spec n :
  forall result, collectDescendants_at n result = result ++ descendants n.
Proof.
  induction n as [c ty tx l r s ch IH] using PSINode_tree_ind.
  intros result. unfold descendants.
  cbn [collectDescendants_at children_].
  revert result.
  induction IH as [|x xs Hx _ IHxs]; intros result.
  - cbn. now rewrite app_nil_r.
  - cbn [flat_map]. rewrite Hx, IHxs, preorder_unfold.
    now rewrite <- !app_assoc.
Qed.

Lemma getAllDescendants_spec n : getAllDescendants (Some n) = descendants n.
Proof.
  unfold getAllDescendants, collectDescendants.
  now rewrite collectDescendants_at_spec.
Qed.

(* ===================================================================== *)
(** ** Cloning (C8) *)
(* ===================================================================== *)

Lemma cloneSubtree_at_spec n : cloneSubtree_at n = Some (clone_of n).
Proof.
  induction n as [c ty tx l r s ch IH] using PSINode_tree_ind.
  cbn [cloneSubtree_at clone_of children_ type_ text_ location_ getType
       getText getLocation].
  f_equal. unfold new_PSINode.
  set (mk := mkPSINode PSINodeBase ty tx l (mkTextRange 0 0) ∅).
  change (List.map clone_of ch) with ([] ++ List.map clone_of ch).
  generalize (@nil PSINode) as done.
  induction IH as [|x xs Hx _ IHxs]; intros done.
  - now rewrite app_nil_r.
  - rewrite Hx. cbn [List.map].
    replace (done ++ clone_of x :: List.map clone_of xs)
      with ((done ++ [clone_of x]) ++ List.map clone_of xs)
      by now rewrite <- app_assoc.
    rewrite <- IHxs. reflexivity.
Qed.

Lemma clone_of_kind_text n :
  List.map kind_text (preorder (clone_of n))
  = List.map kind_text (preorder n).
Proof.
  induction n as [c ty tx l r s ch IH] using PSINode_tree_ind.
  cbn [clone_of preorder children_ type_ text_ location_ List.map].
  f_equal.
  induction IH as [|x xs Hx _ IHxs]; [reflexivity|].
  cbn [List.map flat_map]. rewrite !List.map_app, Hx. now f_equal.
Qed.

Lemma clone_of_size n :
  calculateSubtreeSize_at (clone_of n) = calculateSubtreeSize_at n.
Proof.
  induction n as [c ty tx l r s ch IH] using PSINode_tree_ind.
  cbn [clone_of calculateSubtreeSize_at children_].
  generalize 1 as size.
  induction IH as [|x xs Hx _ IHxs]; intros size; [reflexivity|].
  cbn [List.map]. rewrite Hx. apply IHxs.
Qed.

(** C8. For every tree [root], [cloneSubtree(root)] is a tree whose
    [getSubtreeSize] equals that of [root] and whose sequence of
    (kind, text) pairs in pre-order (the order in which
    [findNodesByCondition] with an always-true condition returns the nodes)
    is the one of [root]. *)
Theorem C8_cloneSubtree_preserves_size_and_labels (root : PSINode) :
  exists clone,
    cloneSubtree (Some root) = Some clone
    /\ getSubtreeSize (Some clone) = getSubtreeSize (Some root)
    /\ List.map kind_text (findNodesByCondition (Some clone) (fun _ => true))
       = List.map kind_text (findNodesByCondition (Some root) (fun _ => true)).
Proof.
  exists (clone_of root). split; [apply cloneSubtree_at_spec|].
  split; [apply clone_of_size|].
  rewrite !findNodesByCondition_spec.
  assert (Hall : forall l : list PSINode,
             List.filter (fun _ => true) l = l).
  { induction l as [|x xs IHl]; [reflexivity|]. cbn. now rewrite IHl. }
  rewrite !Hall. apply clone_of_kind_text.
Qed.

(* ===================================================================== *)
(** ** Semantic information in queries (C10) *)
(* ===================================================================== *)

Lemma matchesFilters_forallb q node :
  matchesFilters q node = forallb (fun f => f node) (filters_ q).
Proof.
  unfold matchesFilters.
  induction (filters_ q) as [|f fs IH]; [reflexivity|].
  cbn. rewrite IH. now destruct (f node).
Qed.

(** C10. For every node and every key absent from its semantic-info map,
    [getSemanticInfo(key)] is the empty string; so the predicate of
    [withSemanticInfo(key, "")] holds for the node, the query returns
    exactly the nodes that lack the key or store the empty string for it,
    and for no value does the predicate tell the node from the same node
    with the empty string stored under the key. *)
Theorem C10_absent_key_reads_empty (n : PSINode) (key : string) :
  semantic_info_ n !! key = None ->
  getSemanticInfo n key = ""
  /\ matchesFilters (withSemanticInfo key "" (new_PSITreeQuery None)) n = true
  /\ (forall value,
        let q := withSemanticInfo key value (new_PSITreeQuery None) in
        matchesFilters q n = matchesFilters q (setSemanticInfo key "" n))
  /\ (forall root m,
        In m (execute (withSemanticInfo key "" (new_PSITreeQuery (Some root))))
        <-> In m (preorder root)
            /\ (semantic_info_ m !! key = None
                \/ semantic_info_ m !! key = Some "")).
Proof.
  intros Habsent.
  assert (Hget : getSemanticInfo n key = "")
    by (unfold getSemanticInfo; now rewrite Habsent).
  split; [exact Hget|]. split; [|split].
  - rewrite matchesFilters_forallb. cbn. rewrite Hget.
    now rewrite bool_decide_eq_true_2.
  - intros value q. subst q. rewrite !matchesFilters_forallb. cbn.
    assert (Hset : getSemanticInfo (setSemanticInfo key "" n) key = "").
    { unfold getSemanticInfo, setSemanticInfo. cbn [semantic_info_].
      now rewrite lookup_insert_eq. }
    now rewrite Hget, Hset.
  - intros root m.
    unfold execute, withSemanticInfo, push_filter, new_PSITreeQuery.
    cbn [root_ filters_].
    rewrite findNodesByCondition_spec, List.filter_In.
    rewrite matchesFilters_forallb. cbn. rewrite andb_true_r.
    rewrite bool_decide_eq_true. unfold getSemanticInfo.
    destruct (semantic_info_ m !! key) as [v|]; intuition congruence.
Qed.

Lemma C10_absent_key_reads_empty_witness :
  semantic_info_ C10_sample_node !! "stub_id" = None
  /\ getSemanticInfo C10_sample_node "stub_id" = "".
Proof.
  split; [reflexivity|].
  apply (C10_absent_key_reads_empty C10_sample_node "stub_id").
  reflexivity.
Defined.

(* ===================================================================== *)
(** ** Differences (C9) *)
(* ===================================================================== *)

Lemma same_kind_text_true a b :
  same_kind_text a b = true <-> kind_text a = kind_text b.
Proof.
  unfold same_kind_text, kind_text.
  rewrite andb_true_iff, !bool_decide_eq_true. split.
  - intros [-> ->]. reflexivity.
  - intros H. now inversion H.
Qed.

Lemma findDifferences_filter t1 t2 :
  findDifferences (Some t1) (Some t2)
  = List.filter
      (fun node1 => negb (existsb (same_kind_text node1) (descendants t2)))
      (descendants t1).
Proof.
  unfold findDifferences. rewrite !getAllDescendants_spec.
  set (keep := fun node1 =>
                 negb (existsb (same_kind_text node1) (descendants t2))).
  enough (Hacc : forall nodes1 acc,
    fold_left
      (fun differences node1 =>
         if existsb
              (fun node2 =>
                 bool_decide (getType node1 = getType node2)
                 && bool_decide (getText node1 = getText node2))
              (descendants t2)
         then differences else differences ++ [node1]) nodes1 acc
    = acc ++ List.filter keep nodes1) by apply (Hacc _ []).
  induction nodes1 as [|x xs IH]; intros acc.
  - cbn. now rewrite app_nil_r.
  - cbn [fold_left List.filter]. rewrite IH.
    replace (keep x) with
      (negb (existsb
               (fun node2 =>
                  bool_decide (getType x = getType node2)
                  && bool_decide (getText x = getText node2))
               (descendants t2))) by reflexivity.
    destruct (existsb _ (descendants t2)); cbn [negb].
    + reflexivity.
    + now rewrite <- app_assoc.
Qed.

(** C9 (amended). For every pair of non-null trees, [findDifferences(t1, t2)]
    is, in pre-order, the list of the strict descendants of [t1] (what
    [getAllDescendants] returns: the root is not among them) for which no
    strict descendant of [t2] has an equal (kind, text) pair; where the
    nodes sit in either tree plays no part. *)
Theorem C9_findDifferences_over_descendants (t1 t2 : PSINode) :
  preorder t1 = t1 :: getAllDescendants (Some t1)
  /\ preorder t2 = t2 :: getAllDescendants (Some t2)
  /\ findDifferences (Some t1) (Some t2)
     = List.filter
         (fun node1 =>
            negb (existsb (same_kind_text node1)
                    (getAllDescendants (Some t2))))
         (getAllDescendants (Some t1))
  /\ (forall n,
        In n (findDifferences (Some t1) (Some t2))
        <-> In n (getAllDescendants (Some t1))
            /\ forall m, In m (getAllDescendants (Some t2)) ->
                         kind_text n <> kind_text m).
Proof.
  rewrite !getAllDescendants_spec, findDifferences_filter.
  split; [apply preorder_unfold|]. split; [apply preorder_unfold|].
  split; [reflexivity|].
  intros n. rewrite List.filter_In, negb_true_iff.
  split; intros [Hin Hno]; (split; [exact Hin|]).
  - intros m Hm Heq.
    assert (Hex : existsb (same_kind_text n) (descendants t2) = true).
    { apply existsb_exists. exists m. split; [exact Hm|].
      now apply same_kind_text_true. }
    congruence.
  - destruct (existsb (same_kind_text n) (descendants t2)) eqn:Hex;
      [|reflexivity].
    apply existsb_exists in Hex as [m [Hm Heq]].
    apply same_kind_text_true in Heq. now destruct (Hno m Hm).
Qed.

(** The root of [a.cpp] is a node of the first tree and no node of the
    second tree has its (kind, text) pair, yet it is not reported. *)
Lemma C9_counterexample_root_not_compared :
  ~ (forall n,
       In n (findDifferences (Some C9_tree_a) (Some C9_tree_b))
       <-> In n (preorder C9_tree_a)
           /\ forall m, In m (preorder C9_tree_b) ->
                        kind_text n <> kind_text m).
Proof.
  intros Hclaim.
  assert (Hin : In C9_tree_a
                  (findDifferences (Some C9_tree_a) (Some C9_tree_b))).
  { apply Hclaim. split; [left; reflexivity|].
    intros m [<-|[]]. discriminate. }
  exact Hin.
Qed.

(* ===================================================================== *)
(** ** Null roots (C1) *)
(* ===================================================================== *)

(** C1 (amended). With a null root or node, every operation of
    PSITreeOperations that tests its argument returns without touching it:
    the searches ([findAllNodes], [findNodesByCondition], [findNodesByName],
    [findNodesInFile], [findNodesInLineRange]) and the collectors
    ([getAllDescendants], [getLeafNodes], [getBranchNodes]) return the empty
    list, [findFirstNodeByName] returns null, [getSubtreeSize] returns 0,
    and [getTreeDepth] returns 1. *)
Theorem C1_null_root_in_guarded_operations :
  (forall type, findAllNodes None type = [])
  /\ (forall condition, findNodesByCondition None condition = [])
  /\ (forall name, findNodesByName None name = [])
  /\ (forall name, findFirstNodeByName None name = None)
  /\ (forall path, findNodesInFile None path = [])
  /\ (forall lo hi, findNodesInLineRange None lo hi = [])
  /\ getAllDescendants None = []
  /\ getLeafNodes None = []
  /\ getBranchNodes None = []
  /\ getSubtreeSize None = 0
  /\ getTreeDepth None = 1.
Proof. repeat split. Qed.

(** On nodes that exist: the depth of a three-level tree, and the
    ancestors of a grandchild from the root down. *)
Example getTreeDepth_three_levels : getTreeDepth (Some C6_tree) = 3.
Proof. reflexivity. Qed.

Example getAncestors_root_first :
  Mem.getAncestors 4 C3_heap (Some 2%nat) = Mem.Returns [0%nat; 1%nat].
Proof. reflexivity. Qed.

(** C1, the two operations the claim names.  [calculateDepth] answers 1 for
    a null node, not 0, and [getAncestors] reads [node->getParent()] before
    any test, which for a null node is a null dereference. *)
Lemma C1_counterexample_null_depth_and_ancestors :
  getTreeDepth None <> 0
  /\ Mem.getAncestors 1 ∅ None <> Mem.Returns [].
Proof. split; discriminate. Qed.

(* ===================================================================== *)
(** ** removeNode (C3) *)
(* ===================================================================== *)

Section RemoveNode.
Import Mem.

Lemma erase_first_app_r node (l l' : list addr) :
  node ∉ l' -> erase_first node (l ++ l') = erase_first node l ++ l'.
Proof.
  intros Hnot. induction l as [|x xs IH]; cbn.
  - induction l' as [|y ys IHy]; [reflexivity|]. cbn.
    destruct (decide (y = node)) as [->|_].
    + exfalso. apply Hnot. left.
    + f_equal. apply IHy. intros Hin. apply Hnot. now right.
  - destruct (decide (x = node)); [reflexivity|]. now rewrite IH.
Qed.

Lemma erase_first_NoDup node (l : list addr) :
  NoDup l -> node ∉ erase_first node l.
Proof.
  induction 1 as [|x xs Hx Hnd IH]; cbn.
  - apply not_elem_of_nil.
  - destruct (decide (x = node)) as [->|Hne]; [exact Hx|].
    apply not_elem_of_cons. split; [congruence|exact IH].
Qed.

(** What [removeNode(node, true)] does to a node with two children below a
    parent [P], all four nodes distinct and [P]'s children without
    repetition: [P] loses [node] and gains the two children at the end,
    the children point to [P], and the cell of [node] is not written at
    all, so its parent pointer still is [P]. *)
Lemma removeNode_keep_children_effect (h : Heap) (node P c1 c2 : addr)
    (cn cp cc1 cc2 : Cell) :
  h !! node = Some cn -> h !! P = Some cp ->
  h !! c1 = Some cc1 -> h !! c2 = Some cc2 ->
  parent_ cn = Some P -> children_ cn = [c1; c2] ->
  NoDup [P; node; c1; c2] -> NoDup (children_ cp) ->
  exists h',
    removeNode h (Some node) true = Returns h'
    /\ h' !! P
       = Some (set_children cp
                 (erase_first node (children_ cp) ++ [c1; c2]))
    /\ (node ∉ erase_first node (children_ cp) ++ [c1; c2])
    /\ h' !! c1 = Some (set_parent cc1 (Some P))
    /\ h' !! c2 = Some (set_parent cc2 (Some P))
    /\ h' !! node = Some cn.
Proof.
  intros Hn HP Hc1 Hc2 Hpar Hch Hnd HndP.
  apply NoDup_cons in Hnd as [HP_not Hnd].
  apply NoDup_cons in Hnd as [Hn_not Hnd].
  apply NoDup_cons in Hnd as [Hc1_not _].
  assert (HPn : P <> node) by set_solver.
  assert (HPc1 : P <> c1) by set_solver.
  assert (HPc2 : P <> c2) by set_solver.
  assert (Hnc1 : node <> c1) by set_solver.
  assert (Hnc2 : node <> c2) by set_solver.
  assert (Hc12 : c1 <> c2) by set_solver.
  eexists. split.
  - unfold removeNode, getParent, getChildren, deref, setParent,
      push_back_child, mbind, outcome_bind.
    rewrite Hn, Hpar, Hch. destruct (decide (P = node)); [contradiction|].
    simplify_map_eq. reflexivity.
  - simplify_map_eq. repeat split.
    + unfold set_children. cbn. f_equal. f_equal.
      rewrite <- app_assoc. apply erase_first_app_r. set_solver.
    + apply not_elem_of_app. split; [now apply erase_first_NoDup|set_solver].
Qed.

(** The sibling [PSINode::removeChild] does reset the back-reference of the
    child it detaches. *)
Lemma removeChild_clears_parent (h : Heap) (this child : addr) (index : nat)
    (c cc : Cell) :
  h !! this = Some c -> children_ c !! index = Some child ->
  h !! child = Some cc -> child <> this ->
  exists h',
    removeChild h this index = Returns h'
    /\ h' !! child = Some (set_parent cc None)
    /\ h' !! this = Some (set_children c (delete index (children_ c))).
Proof.
  intros Hthis Hidx Hchild Hne.
  eexists. split.
  - unfold removeChild, deref, setParent, mbind, outcome_bind.
    rewrite Hthis, Hidx, Hchild. simplify_map_eq. reflexivity.
  - simplify_map_eq. split; reflexivity.
Qed.

(** C3. [removeNode(node, true)] on the namespace node of [C3_heap]: the
    parent's children become the two re-parented children and both point
    to the parent, as the claim says; the parent reference of the removed
    node is not null, it still is the old parent. *)
Theorem C3_removeNode_leaves_parent_reference :
  exists h',
    removeNode C3_heap (Some 1%nat) true = Returns h'
    /\ getChildren h' (Some 0%nat) = Returns [2%nat; 3%nat]
    /\ getParent h' (Some 2%nat) = Returns (Some 0%nat)
    /\ getParent h' (Some 3%nat) = Returns (Some 0%nat)
    /\ getParent h' (Some 1%nat) = Returns (Some 0%nat)
    /\ getParent h' (Some 1%nat) <> Returns None.
Proof.
  destruct (removeNode_keep_children_effect C3_heap 1%nat 0%nat 2%nat 3%nat
              (mkCell PSINodeType.NAMESPACE "ns" (Some 0%nat) [2%nat; 3%nat])
              (mkCell PSINodeType.FILE "root.cpp" None [1%nat])
              (mkCell PSINodeType.CLASS "A" (Some 1%nat) [])
              (mkCell PSINodeType.FUNCTION "f" (Some 1%nat) []))
    as (h' & Hrun & HP & _ & Hc1 & Hc2 & Hnode);
    try reflexivity.
  - apply (bool_decide_unpack _). reflexivity.
  - apply NoDup_singleton.
  - exists h'. split; [exact Hrun|].
    unfold getChildren, getParent, deref, mbind, outcome_bind.
    rewrite HP, Hc1, Hc2, Hnode. cbn. repeat split; discriminate.
Qed.

End RemoveNode.

(* ===================================================================== *)
(** ** Self-similarity (C2) *)
(* ===================================================================== *)


(** *** The node score of a tree against itself *)


(** *** The size score in binary64 *)












(* ===================================================================== *)
(** ** Pruning in transformTree (C6) *)
(* ===================================================================== *)

Lemma survivor_paths_unfold transformer node :
  survivor_paths transformer node
  = match transformer node with
    | None => []
    | Some _ =>
        [] :: paths_below (survivor_paths transformer) 0 (children_ node)
    end.
Proof. now destruct node. Qed.

Example C6_prune_namespace :
  option_map contents (removeNodesByType (Some C6_tree) PSINodeType.NAMESPACE)
  = Some [ new_PSINode PSINodeType.FILE "t.cpp" (mkSourceLocation "t.cpp" 1 1);
           new_PSINode PSINodeType.FUNCTION "main"
                       (mkSourceLocation "t.cpp" 1 1) ].
Proof. reflexivity. Qed.

Section Transform.
Variable transformer : PSINode -> option PSINode.

Lemma with_children_id n : with_children n (children_ n) = n.
Proof. now destruct n. Qed.

Lemma transformNode_at_unfold (node : PSINode) :
  transformNode_at node transformer
  = match transformer node with
    | None => None
    | Some r =>
        Some (with_children r
                (children_ r
                 ++ omap (fun c => transformNode_at c transformer)
                      (children_ node)))
    end.
Proof.
  destruct node as [c ty tx l rg s ch]. cbn [transformNode_at children_].
  destruct (transformer _) as [r|]; [|reflexivity]. f_equal.
  revert r. induction ch as [|x xs IH]; intros r.
  - cbn. now rewrite app_nil_r, with_children_id.
  - cbn [omap list_omap]. rewrite IH.
    destruct (transformNode_at x transformer) as [tc|]; [|reflexivity].
    cbn [addChild with_children children_ node_class type_ text_ location_
         text_range_ semantic_info_].
    now rewrite <- app_assoc.
Qed.

Lemma contents_with_children r kids :
  contents (with_children r kids) = shallow r :: flat_map contents kids.
Proof.
  unfold contents. destruct r as [c ty tx l rg s ch].
  cbn [with_children preorder children_ List.map node_class type_ text_
       location_ text_range_ semantic_info_].
  f_equal. induction kids as [|k ks IH]; [reflexivity|].
  cbn [flat_map]. now rewrite List.map_app, IH.
Qed.

Lemma contents_unfold r :
  contents r = shallow r :: flat_map contents (children_ r).
Proof.
  rewrite <- (with_children_id r) at 1. now rewrite contents_with_children.
Qed.

Lemma brought_below (root child : PSINode) (i : nat) (paths : list (list nat)) :
  children_ root !! i = Some child ->
  flat_map (brought transformer root) (List.map (cons i) paths)
  = flat_map (brought transformer child) paths.
Proof.
  intros Hi. induction paths as [|p ps IH]; [reflexivity|].
  cbn [List.map flat_map]. rewrite IH. f_equal.
  unfold brought. cbn [node_at]. now rewrite Hi.
Qed.

Lemma contents_of_children (root : PSINode) (cs : list PSINode) :
  Forall (fun c =>
            contents_opt (transformNode_at c transformer)
            = flat_map (brought transformer c)
                (survivor_paths transformer c)) cs ->
  forall pre, children_ root = pre ++ cs ->
    flat_map (brought transformer root)
      (paths_below (survivor_paths transformer) (length pre) cs)
    = flat_map contents
        (omap (fun c => transformNode_at c transformer) cs).
Proof.
  induction 1 as [|x xs Hx _ IH]; intros pre Hch; [reflexivity|].
  cbn [paths_below]. rewrite flat_map_app.
  rewrite (brought_below root x (length pre)
             (survivor_paths transformer x))
    by (rewrite Hch; now apply list_lookup_middle).
  rewrite <- Hx.
  specialize (IH (pre ++ [x])). rewrite length_app, Nat.add_1_r in IH.
  rewrite IH by (now rewrite <- app_assoc).
  cbn [omap list_omap].
  now destruct (transformNode_at x transformer).
Qed.

Lemma transformNode_at_contents (node : PSINode) :
  contents_opt (transformNode_at node transformer)
  = flat_map (brought transformer node) (survivor_paths transformer node).
Proof.
  induction node as [c ty tx l rg s ch IH] using PSINode_tree_ind.
  rewrite transformNode_at_unfold, survivor_paths_unfold.
  cbn [children_].
  destruct (transformer _) as [r|] eqn:Hr; [|reflexivity].
  cbn [contents_opt flat_map]. rewrite contents_with_children, flat_map_app.
  unfold brought at 1. cbn [node_at mbind option_bind]. rewrite Hr.
  cbn [contents_opt]. rewrite contents_unfold. cbn [app]. f_equal. f_equal.
  symmetry.
  apply (contents_of_children (mkPSINode c ty tx l rg s ch) ch IH []).
  reflexivity.
Qed.

Lemma in_survivor_paths_below (cs : list PSINode) :
  forall (k i : nat) (q : list nat),
    In (i :: q)
      (paths_below (survivor_paths transformer) k cs)
    <-> (k <= i)%nat
        /\ exists c, cs !! (i - k)%nat = Some c
                     /\ In q (survivor_paths transformer c).
Proof.
  induction cs as [|x xs IH]; intros k i q.
  - cbn [In]. split; [intros []|]. intros [_ [c [Hc _]]]. discriminate.
  - cbn [paths_below]. rewrite in_app_iff, in_map_iff, IH. split.
    + intros [[y [Heq Hy]]|[Hle [c [Hc Hq]]]].
      * injection Heq as <- <-. split; [lia|]. exists x.
        now rewrite Nat.sub_diag.
      * split; [lia|]. exists c. split; [|exact Hq].
        replace (i - k)%nat with (S (i - S k)) by lia. exact Hc.
    + intros [Hle [c [Hc Hq]]].
      destruct (decide (i = k)) as [->|Hne].
      * left. exists q. rewrite Nat.sub_diag in Hc. cbn in Hc.
        injection Hc as ->. split; [reflexivity|exact Hq].
      * right. split; [lia|]. exists c. split; [|exact Hq].
        replace (i - k)%nat with (S (i - S k)) in Hc by lia. exact Hc.
Qed.

(** The kept positions are those at which the node and all nodes above it
    have a replacement. *)
Lemma survivor_paths_spec (root : PSINode) :
  forall p,
    In p (survivor_paths transformer root)
    <-> forall p', p' `prefix_of` p ->
          exists s, node_at root p' = Some s /\ is_Some (transformer s).
Proof.
  induction root as [c ty tx l rg s ch IH] using PSINode_tree_ind.
  intros p. rewrite survivor_paths_unfold. cbn [children_].
  set (root := mkPSINode c ty tx l rg s ch).
  destruct (transformer root) as [r|] eqn:Hr.
  - destruct p as [|i q].
    + split; [|intros _; apply in_eq].
      intros _ p' Hp'. apply prefix_nil_inv in Hp' as ->.
      exists root. split; [reflexivity|]. rewrite Hr. eauto.
    + cbn [In]. rewrite in_survivor_paths_below, Nat.sub_0_r. split.
      * intros [Hcon|[_ [child [Hchild Hq]]]]; [discriminate|].
        rewrite Forall_lookup in IH.
        pose proof (proj1 (IH _ _ Hchild q) Hq) as Hq'.
        intros [|i' q'] Hp'.
        -- exists root. split; [reflexivity|]. rewrite Hr. eauto.
        -- destruct Hp' as [k Hk]. injection Hk as -> ->.
           cbn [node_at]. change (children_ root) with ch.
           rewrite Hchild. apply Hq'.
           now exists k.
      * intros Hall. right. split; [lia|].
        destruct (Hall [i]) as [child [Hchild _]];
          [exists q; reflexivity|].
        cbn [node_at] in Hchild. change (children_ root) with ch in Hchild.
        destruct (ch !! i) as [child'|] eqn:Hi; [|discriminate].
        exists child'. split; [reflexivity|].
        rewrite Forall_lookup in IH. apply (proj2 (IH _ _ Hi q)).
        intros q' [k ->].
        destruct (Hall (i :: q')) as [s' [Hs' Hts']];
          [exists k; reflexivity|].
        cbn [node_at] in Hs'. change (children_ root) with ch in Hs'.
        rewrite Hi in Hs'. eauto.
  - split; [intros []|]. intros Hall.
    destruct (Hall []) as [s' [Hs' Hts']]; [apply prefix_nil|].
    injection Hs' as <-. rewrite Hr in Hts'. now destruct Hts'.
Qed.

End Transform.

(** C6. For every tree and every transformer: a node without a replacement
    yields null, whatever is below it; a node with a replacement yields the
    replacement with the non-null results of its children appended in
    order; the output of [transformTree] consists, in pre-order, of what
    the replacements of the kept positions bring, the kept positions being
    those at which the node and every node above it have a replacement; so
    no position at or below a node without a replacement is kept. *)
Theorem C6_transformTree_prunes_whole_subtrees
    (transformer : PSINode -> option PSINode) (root : PSINode) :
  (forall node,
      transformer node = None ->
      transformNode (Some node) transformer = None)
  /\ (forall node r,
        transformer node = Some r ->
        transformNode (Some node) transformer
        = Some (with_children r
                  (children_ r
                   ++ omap (fun c => transformNode (Some c) transformer)
                        (children_ node))))
  /\ contents_opt (transformTree (Some root) transformer)
     = flat_map (brought transformer root) (survivor_paths transformer root)
  /\ (forall p,
        In p (survivor_paths transformer root)
        <-> forall p', p' `prefix_of` p ->
              exists s, node_at root p' = Some s
                        /\ is_Some (transformer s))
  /\ (forall p q node,
        node_at root p = Some node -> transformer node = None ->
        ~ In (p ++ q) (survivor_paths transformer root)).
Proof.
  split; [|split; [|split; [|split]]].
  - intros node Hnone. cbn [transformNode].
    now rewrite transformNode_at_unfold, Hnone.
  - intros node r Hsome. cbn [transformNode].
    now rewrite transformNode_at_unfold, Hsome.
  - apply transformNode_at_contents.
  - apply survivor_paths_spec.
  - intros p q node Hnode Hnone Hin.
    rewrite survivor_paths_spec in Hin.
    destruct (Hin p) as [s [Hs Hts]]; [now exists q|].
    rewrite Hnode in Hs. injection Hs as <-.
    rewrite Hnone in Hts. now destruct Hts.
Qed.

(* ===================================================================== *)
(** ** Visitor dispatch (C7) *)
(* ===================================================================== *)

Lemma accept_unfold {S : Type} (v : VisitorClass S) (node : PSINode)
    (s : S) :
  accept v node s
  = match node_class node with
    | PSINodeBase => s
    | PSIFileNode _ _ =>
        visitFile v (visitNode v (visit_children v node) node) node s
    | PSINamespaceNode _ =>
        visitNamespace v (visitNode v (visit_children v node) node) node s
    | PSIClassNode _ _ _ =>
        visitClass v (visitNode v (visit_children v node) node) node s
    | PSIFunctionNode _ _ _ _ _ _ _ =>
        visitFunction v (visitNode v (visit_children v node) node) node s
    | PSIVariableNode _ _ _ _ _ _ =>
        visitVariable v (visitNode v (visit_children v node) node) node s
    end.
Proof.
  assert (Hloop : forall cs,
    (fix loop (cs : list PSINode) (s : S) : S :=
       match cs with
       | [] => s
       | child :: cs' =>
           loop cs' (visit_method v (accept v child) (Some child) s)
       end) cs
    = fun s => fold_left (fun s child => visit v (Some child) s) cs s).
  { induction cs as [|x xs IH]; [reflexivity|]. cbn -[visit].
    now rewrite IH. }
  destruct node as [c ty tx l r si ch].
  cbn [accept node_class children_]. unfold visit_children.
  cbn [children_]. rewrite Hloop. reflexivity.
Qed.

Example C7_statistics_of_file_tree :
  let s := visit StatisticsVisitor (Some C7_file_tree) new_StatisticsVisitor in
  s total_node_count_ = 2 /\ s file_count_ = 1 /\ s class_count_ = 1.
Proof. repeat split. Qed.

(** The same tree after [cloneSubtree], which makes node objects of the
    base class: were [visitNode] run on the root it would count it;
    [visit] leaves every counter at zero. *)
Example C7_statistics_of_plain_tree :
  cloneSubtree (Some C7_file_tree) = Some C7_plain_tree
  /\ (forall c,
        visit StatisticsVisitor (Some C7_plain_tree) new_StatisticsVisitor c
        = 0)
  /\ visitNode StatisticsVisitor
       (visit_children StatisticsVisitor C7_plain_tree) C7_plain_tree
       new_StatisticsVisitor total_node_count_ = 1
  /\ ~ (forall s c,
          visit StatisticsVisitor (Some C7_plain_tree) s c
          = visitNode StatisticsVisitor
              (visit_children StatisticsVisitor C7_plain_tree)
              C7_plain_tree s c).
Proof.
  split; [apply cloneSubtree_at_spec|]. split; [reflexivity|].
  split; [reflexivity|].
  intros Hclaim.
  specialize (Hclaim new_StatisticsVisitor total_node_count_).
  discriminate Hclaim.
Qed.

(** C7. What [visit(node)] does, for every visitor class and every node
    object.  The call runs the visitor's [visit], whose base
    implementation is [node->accept(this)].  For a node object of one of
    the five subclasses [accept] runs the visitor's method for that
    subclass; the base implementation that method is handed runs
    [visitNode(node)], whose base implementation runs [visit] on every
    child in order; so a visitor that overrides none of the five methods
    ends in [visitNode].  [PSINode::accept] has an empty body: for a node
    object of the base class no method of the visitor runs, [visitNode]
    is not reached and no child is visited.  On the clone of a file with
    one class, [StatisticsVisitor] counts nothing and
    [CollectVisitor<PSINode>] collects the root and not the child, while
    on the file itself they count and collect both nodes. *)
Theorem C7_visit_dispatches_by_class
    {S : Type} (v : VisitorClass S) (node : PSINode) (s : S) :
  let generic := visitNode v (visit_children v node) node in
  visit v (Some node) s = visit_method v (accept v node) (Some node) s
  /\ accept v node s
     = match node_class node with
       | PSINodeBase => s
       | PSIFileNode _ _ => visitFile v generic node s
       | PSINamespaceNode _ => visitNamespace v generic node s
       | PSIClassNode _ _ _ => visitClass v generic node s
       | PSIFunctionNode _ _ _ _ _ _ _ => visitFunction v generic node s
       | PSIVariableNode _ _ _ _ _ _ => visitVariable v generic node s
       end
  /\ visit_children v node s
     = fold_left (fun s child => visit v (Some child) s) (children_ node) s
  /\ (forall on_node,
        let w := mkVisitorClass S
                   (fun base _ => base)
                   (fun base _ => base) (fun base _ => base)
                   (fun base _ => base) (fun base _ => base)
                   (fun base _ => base) on_node in
        visit w (Some node) s
        = match node_class node with
          | PSINodeBase => s
          | _ => on_node (visit_children w node) node s
          end)
  /\ visit (PSIVisitor S) (Some node) s
     = match node_class node with
       | PSINodeBase => s
       | _ => visit_children (PSIVisitor S) node s
       end
  /\ cloneSubtree (Some C7_file_tree) = Some C7_plain_tree
  /\ (forall c,
        visit StatisticsVisitor (Some C7_plain_tree) new_StatisticsVisitor c
        = 0)
  /\ visit StatisticsVisitor (Some C7_file_tree) new_StatisticsVisitor
           total_node_count_ = 2
  /\ visit CollectVisitor (Some C7_plain_tree) [] = [Some C7_plain_tree]
  /\ visit CollectVisitor (Some C7_file_tree) []
     = Some C7_file_tree :: List.map Some (children_ C7_file_tree).
Proof.
  cbn zeta. split; [reflexivity|]. split; [apply accept_unfold|].
  split; [reflexivity|]. split; [|split].
  - intros on_node. unfold visit. cbn [visit_method PSIVisitor_visit].
    rewrite accept_unfold. now destruct (node_class node).
  - unfold visit. cbn [visit_method PSIVisitor PSIVisitor_visit].
    rewrite accept_unfold. now destruct (node_class node).
  - split; [apply cloneSubtree_at_spec|]. now repeat split.
Qed.

(* ===================================================================== *)
(** ** Flat grouping in the tree builder (C4) *)
(* ===================================================================== *)

Lemma build_pass_children kind create parent stubs :
  build_pass kind create parent stubs
  = with_children parent
      (children_ parent ++ omap create (of_kind kind stubs)).
Proof.
  unfold build_pass, of_kind. revert parent.
  induction stubs as [|x xs IH]; intros parent.
  - cbn. now rewrite app_nil_r, with_children_id.
  - cbn [fold_left List.filter]. rewrite IH.
    destruct (decide (Stub.getType x = kind)) as [Hk|Hk].
    + rewrite bool_decide_eq_true_2 by exact Hk. cbn [omap list_omap].
      destruct (create x) as [node|]; [|reflexivity].
      destruct parent. cbn. now rewrite <- app_assoc.
    + now rewrite bool_decide_eq_false_2 by exact Hk.
Qed.

Lemma createClassNode_made_for stubs :
  Forall2 made_for (of_kind StubType.CLASS stubs)
          (omap createClassNode (of_kind StubType.CLASS stubs)).
Proof.
  unfold of_kind. induction stubs as [|x xs IH]; [constructor|].
  cbn [List.filter]. destruct x as [n l s|n l r p|n l t c s]; cbn; try exact IH.
  constructor; [|exact IH].
  unfold made_for, getSemanticInfo, setSemanticInfo. cbn.
  rewrite lookup_insert_eq. repeat split; eauto.
  destruct s; eauto.
Qed.

Lemma addParameter_fields ty nm node :
  (exists n r p v s c o, node_class node = PSIFunctionNode n r p v s c o) ->
  let node' := addParameter ty nm node in
  (exists n r p v s c o, node_class node' = PSIFunctionNode n r p v s c o)
  /\ type_ node' = type_ node /\ text_ node' = text_ node
  /\ location_ node' = location_ node
  /\ semantic_info_ node' = semantic_info_ node
  /\ children_ node' = children_ node.
Proof.
  intros (n & r & p & v & s & c & o & Hclass). cbn zeta.
  unfold addParameter. rewrite Hclass. cbn. repeat split. eauto 10.
Qed.

Lemma addParameter_fold_fields params : forall node,
  (exists n r p v s c o, node_class node = PSIFunctionNode n r p v s c o) ->
  let node' :=
    fold_left
      (fun node param =>
         addParameter (param_type param) (param_name param) node)
      params node in
  (exists n r p v s c o, node_class node' = PSIFunctionNode n r p v s c o)
  /\ type_ node' = type_ node /\ text_ node' = text_ node
  /\ location_ node' = location_ node
  /\ semantic_info_ node' = semantic_info_ node
  /\ children_ node' = children_ node.
Proof.
  induction params as [|x xs IH]; intros node Hclass; cbn zeta.
  - cbn. repeat split. exact Hclass.
  - cbn [fold_left].
    destruct (addParameter_fields (param_type x) (param_name x) node Hclass)
      as (Hc1 & Hty1 & Htx1 & Hl1 & Hs1 & Hch1).
    destruct (IH _ Hc1) as (Hc & Hty & Htx & Hl & Hs & Hch).
    repeat split; congruence || exact Hc.
Qed.

Lemma createFunctionNode_made_for stubs :
  Forall2 made_for (of_kind StubType.FUNCTION stubs)
          (omap createFunctionNode (of_kind StubType.FUNCTION stubs)).
Proof.
  unfold of_kind. induction stubs as [|x xs IH]; [constructor|].
  cbn [List.filter]. destruct x as [n l s|n l r p|n l t c s]; cbn; try exact IH.
  constructor; [|exact IH].
  destruct (addParameter_fold_fields p (new_PSIFunctionNode n l r))
    as (Hclass & Hty & Htx & Hloc & Hsem & Hch); [cbn; eauto 10|].
  unfold made_for, getSemanticInfo, setSemanticInfo, getText, getLocation,
    getType.
  cbn. rewrite lookup_insert_eq, Hty, Htx, Hloc, Hch.
  repeat split; exact Hclass.
Qed.

Lemma createVariableNode_made_for stubs :
  Forall2 made_for (of_kind StubType.VARIABLE stubs)
          (omap createVariableNode (of_kind StubType.VARIABLE stubs)).
Proof.
  unfold of_kind. induction stubs as [|x xs IH]; [constructor|].
  cbn [List.filter]. destruct x as [n l s|n l r p|n l t c s]; cbn; try exact IH.
  constructor; [|exact IH].
  unfold made_for, getSemanticInfo, setSemanticInfo. cbn.
  rewrite lookup_insert_eq. repeat split; eauto 10.
Qed.

(** C4. For every ordered record list the extractor yields, with [N]
    class records, [M] function records and [K] variable records, the
    built tree is a File root whose children are: one class node per class
    record, then one function node per function record, then one variable
    node per variable record, each group in the order of the records;
    [N + M + K] children in all, each carrying [stub_id] equal to the name
    of its record. *)
Theorem C4_buildTreeFromContent_flat_grouping
    (parseCode : string -> string -> list StubEntry)
    (path content : string) :
  let stubs := parseCode content path in
  let root := buildTreeFromContent parseCode path content in
  node_class root = PSIFileNode path content
  /\ getType root = PSINodeType.FILE
  /\ exists classes functions variables,
       children_ root = classes ++ functions ++ variables
       /\ Forall2 made_for (of_kind StubType.CLASS stubs) classes
       /\ Forall2 made_for (of_kind StubType.FUNCTION stubs) functions
       /\ Forall2 made_for (of_kind StubType.VARIABLE stubs) variables
       /\ length (children_ root)
          = (length (of_kind StubType.CLASS stubs)
             + length (of_kind StubType.FUNCTION stubs)
             + length (of_kind StubType.VARIABLE stubs))%nat.
Proof.
  cbn zeta. unfold buildTreeFromContent.
  set (stubs := parseCode content path).
  assert (Hbuilt :
    buildVariableStructure
      (buildFunctionStructure
         (buildClassStructure (new_PSIFileNode path content) stubs) stubs)
      stubs
    = with_children (new_PSIFileNode path content)
        (omap createClassNode (of_kind StubType.CLASS stubs)
         ++ omap createFunctionNode (of_kind StubType.FUNCTION stubs)
         ++ omap createVariableNode (of_kind StubType.VARIABLE stubs))).
  { unfold buildVariableStructure, buildFunctionStructure,
      buildClassStructure.
    rewrite !build_pass_children. cbn. now rewrite <- app_assoc. }
  assert (Hroot :
    match stubs with
    | [] => new_PSIFileNode path content
    | _ :: _ =>
        buildVariableStructure
          (buildFunctionStructure
             (buildClassStructure (new_PSIFileNode path content) stubs)
             stubs) stubs
    end
    = with_children (new_PSIFileNode path content)
        (omap createClassNode (of_kind StubType.CLASS stubs)
         ++ omap createFunctionNode (of_kind StubType.FUNCTION stubs)
         ++ omap createVariableNode (of_kind StubType.VARIABLE stubs))).
  { rewrite <- Hbuilt. now destruct stubs. }
  rewrite Hroot. cbn [with_children node_class getType type_ children_
                      new_PSIFileNode].
  split; [reflexivity|]. split; [reflexivity|].
  pose proof (createClassNode_made_for stubs) as Hc.
  pose proof (createFunctionNode_made_for stubs) as Hf.
  pose proof (createVariableNode_made_for stubs) as Hv.
  eexists _, _, _. split; [reflexivity|].
  split; [exact Hc|]. split; [exact Hf|]. split; [exact Hv|].
  rewrite !length_app.
  apply Forall2_length in Hc, Hf, Hv. lia.
Qed.

Example C4_two_classes :
  let parse := fun _ path =>
    [ FunctionStub "main" (mkSourceLocation path 3 1) "int" [];
      ClassStub "A" (mkSourceLocation path 1 1) false;
      VariableStub "g" (mkSourceLocation path 4 1) "int" false true;
      ClassStub "B" (mkSourceLocation path 2 1) true ] in
  List.map kind_text
    (children_ (buildTreeFromContent parse "a.cpp" "class A{}; struct B{};"))
  = [ (PSINodeType.CLASS, "A"); (PSINodeType.STRUCT, "B");
      (PSINodeType.FUNCTION, "main"); (PSINodeType.VARIABLE, "g") ].
Proof. reflexivity. Qed.

(* ===================================================================== *)
(** ** Query precedence (C5) *)
(* ===================================================================== *)

Lemma string_app_cons (a : Ascii.ascii) (p q : string) :
  String a p +:+ q = String a (p +:+ q).
Proof. reflexivity. Qed.

Lemma string_prefix_spec (p s : string) :
  String.prefix p s = true <-> exists post, s = p +:+ post.
Proof.
  revert s. induction p as [|a p IH]; intros s.
  - split; [intros _; now exists s|]. intros _. now destruct s.
  - destruct s as [|b s]; cbn.
    + split; [discriminate|]. intros [post Hp].
      rewrite string_app_cons in Hp. discriminate.
    + destruct (Ascii.ascii_dec a b) as [->|Hne].
      * rewrite IH.
        split; intros [post Hp]; exists post;
          rewrite ?string_app_cons in *; congruence.
      * split; [discriminate|]. intros [post Hp].
        rewrite string_app_cons in Hp. congruence.
Qed.

Lemma find_from_spec (s pattern : string) :
  forall pos,
    find_from s pattern pos <> None
    <-> exists pre post, s = pre +:+ pattern +:+ post.
Proof.
  induction s as [|a s IH]; intros pos; cbn [find_from].
  - destruct (String.prefix pattern "") eqn:Hp.
    + apply string_prefix_spec in Hp as [post Hp].
      split; [intros _; now exists "", post|discriminate].
    + split; [congruence|]. intros [pre [post Heq]]. exfalso.
      destruct pre; [|discriminate].
      assert (String.prefix pattern "" = true)
        by (apply string_prefix_spec; now exists post).
      congruence.
  - destruct (String.prefix pattern (String a s)) eqn:Hp.
    + apply string_prefix_spec in Hp as [post Hp].
      split; [intros _; now exists "", post|discriminate].
    + rewrite IH. split.
      * intros [pre [post Heq]]. exists (String a pre), post.
        now rewrite string_app_cons, Heq.
      * intros [pre [post Heq]]. destruct pre as [|b pre].
        -- assert (String.prefix pattern (String a s) = true)
             by (apply string_prefix_spec; now exists post).
           congruence.
        -- rewrite string_app_cons in Heq. injection Heq as _ Heq.
           now exists pre, post.
Qed.

Lemma contains_spec (s pattern : string) :
  contains s pattern = true
  <-> exists pre post, s = pre +:+ pattern +:+ post.
Proof.
  unfold contains, string_find.
  rewrite bool_decide_eq_true. apply find_from_spec.
Qed.

Lemma contains_empty (s : string) : contains s "" = true.
Proof. apply contains_spec. now exists "", s. Qed.

Lemma string_empty_spec (s : string) : string_empty s = true <-> s = "".
Proof. destruct s; cbn; split; congruence. Qed.

Lemma bucket_push_bucket `{Countable K} (k k' : K) (e : StubEntry)
    (index : gmap K (list StubEntry)) :
  bucket k (bucket_push k' e index)
  = if decide (k = k') then bucket k index ++ [e] else bucket k index.
Proof.
  unfold bucket, bucket_push. destruct (decide (k = k')) as [->|Hne].
  - rewrite lookup_insert_eq. now destruct (index !! k').
  - now rewrite lookup_insert_ne by congruence.
Qed.

Lemma indexed_addEntry (idx : StubIndex) (entry : option StubEntry) :
  indexed idx -> indexed (addEntry idx entry).
Proof.
  intros (Hname & Htype & Hfile). destruct entry as [e|]; [|easy].
  unfold indexed, queryByName, queryByType, queryByFile in *.
  cbn [addEntry name_index_ type_index_ file_index_ all_entries_].
  repeat split; intros k; rewrite bucket_push_bucket, List.filter_app;
    cbn [List.filter]; rewrite ?Hname, ?Htype, ?Hfile;
    destruct (decide _) as [->|Hne].
  all: try (rewrite bool_decide_eq_true_2 by reflexivity; reflexivity).
  all: rewrite bool_decide_eq_false_2 by congruence; now rewrite app_nil_r.
Qed.

Lemma fold_addEntry (entries : list (option StubEntry)) :
  forall idx,
    indexed idx ->
    indexed (fold_left addEntry entries idx)
    /\ all_entries_ (fold_left addEntry entries idx)
       = all_entries_ idx ++ omap id entries.
Proof.
  induction entries as [|x xs IH]; intros idx Hidx.
  - cbn. now rewrite app_nil_r.
  - cbn [fold_left]. destruct (IH _ (indexed_addEntry idx x Hidx)) as [Hi Ha].
    split; [exact Hi|]. rewrite Ha.
    destruct x as [e|]; cbn; [now rewrite <- app_assoc | reflexivity].
Qed.

Lemma fold_left_keep (keep : StubEntry -> bool)
    (step : list StubEntry -> StubEntry -> list StubEntry) :
  (forall result entry,
      step result entry = if keep entry then result ++ [entry] else result) ->
  forall entries result,
    fold_left step entries result = result ++ List.filter keep entries.
Proof.
  intros Hstep. induction entries as [|x xs IH]; intros result; cbn.
  - now rewrite app_nil_r.
  - rewrite IH, Hstep. destruct (keep x); [|reflexivity].
    now rewrite <- app_assoc.
Qed.

Lemma not_found_contains (s pattern : string) :
  bool_decide (string_find s pattern = None) = negb (contains s pattern).
Proof.
  unfold contains. destruct (string_find s pattern); reflexivity.
Qed.

(** [query] follows the precedence, with TYPEDEF standing for "no kind
    filter" in the look-up by name and CLASS in the look-up by kind. *)
Lemma query_follows_precedence (idx : StubIndex) (filter : QueryFilter) :
  query idx filter
  = query_by_precedence StubType.TYPEDEF StubType.CLASS idx filter.
Proof.
  unfold query, query_by_precedence.
  destruct filter as [kind np fp]. cbn [name_pattern type_filter file_pattern].
  destruct (decide (np <> "")) as [Hnp|Hnp].
  - assert (Hne : string_empty np = false)
      by (destruct np; [contradiction|reflexivity]).
    rewrite Hne. cbn [negb].
    apply (fold_left_keep _ _) with (result := []).
    intros result entry. rewrite not_found_contains.
    destruct (decide (kind = StubType.TYPEDEF)) as [->|Hk].
    + rewrite (bool_decide_eq_false_2 (_ <> _)) by tauto.
      rewrite (bool_decide_eq_true_2 (StubType.TYPEDEF = _)) by reflexivity.
      cbn [andb orb].
      destruct fp as [|a fp]; cbn [string_empty negb andb].
      * now rewrite contains_empty.
      * now destruct (contains _ _).
    + rewrite (bool_decide_eq_true_2 (kind <> _)) by exact Hk.
      rewrite (bool_decide_eq_false_2 (kind = _)) by exact Hk.
      cbn [andb orb].
      destruct (decide (Stub.getType entry = kind)) as [He|He].
      * rewrite (bool_decide_eq_false_2 (_ <> _)) by tauto.
        rewrite (bool_decide_eq_true_2 _ He). cbn [andb].
        destruct fp as [|a fp]; cbn [string_empty negb andb].
        -- now rewrite contains_empty.
        -- now destruct (contains _ _).
      * rewrite (bool_decide_eq_true_2 (_ <> _)) by exact He.
        now rewrite (bool_decide_eq_false_2 _ He).
  - assert (Hemp : string_empty np = true)
      by (apply string_empty_spec; now destruct (decide (np = ""))).
    rewrite Hemp. cbn [negb].
    destruct (decide (kind <> StubType.CLASS)) as [Hk|Hk].
    + rewrite bool_decide_eq_true_2 by exact Hk.
      apply (fold_left_keep _ _) with (result := []).
      intros result entry. rewrite not_found_contains.
      destruct fp as [|a fp]; cbn [string_empty negb andb].
      * now rewrite contains_empty.
      * now destruct (contains _ _).
    + rewrite bool_decide_eq_false_2 by exact Hk.
      destruct (decide (fp <> "")) as [Hfp|Hfp].
      * assert (Hfe : string_empty fp = false)
          by (destruct fp; [contradiction|reflexivity]).
        rewrite Hfe. cbn [negb].
        rewrite (fold_left_keep (fun _ => true)
                   (fun result entry => result ++ [entry]))
          by reflexivity.
        cbn [app]. induction (queryByFile idx fp) as [|x xs IHq];
          [reflexivity|]. cbn. now rewrite IHq.
      * assert (Hfe : string_empty fp = true)
          by (apply string_empty_spec; now destruct (decide (fp = ""))).
        now rewrite Hfe.
Qed.

(** C5. For every store contents (the records added so far, in order) and
    every filter, [query] follows the precedence: (a) with a non-empty
    name pattern, the records of that name that match the kind (any kind
    when the filter kind is the no-filter value of this branch, TYPEDEF)
    and whose file path contains the file pattern; (b) else, with a kind
    other than the no-filter value of this branch (CLASS), the records of
    that kind whose file path contains the file pattern; (c) else, with a
    non-empty file pattern, the records of exactly that file; (d) else all
    records; always in insertion order. *)
Theorem C5_query_follows_precedence
    (entries : list (option StubEntry)) (filter : QueryFilter) :
  let idx := index_of entries in
  let records := omap id entries in
  query idx filter
  = query_by_precedence StubType.TYPEDEF StubType.CLASS idx filter
  /\ all_entries_ idx = records
  /\ (forall name,
        queryByName idx name
        = List.filter (fun e => bool_decide (Stub.getName e = name)) records)
  /\ (forall type,
        queryByType idx type
        = List.filter (fun e => bool_decide (Stub.getType e = type)) records)
  /\ (forall path,
        queryByFile idx path
        = List.filter
            (fun e => bool_decide (file_path (Stub.getLocation e) = path))
            records)
  /\ (forall s pattern,
        contains s pattern = true
        <-> exists pre post, s = pre +:+ pattern +:+ post).
Proof.
  cbn zeta. split; [apply query_follows_precedence|].
  destruct (fold_addEntry entries new_StubIndex) as [(Hn & Ht & Hf) Hall].
  { repeat split. }
  unfold index_of. cbn [new_StubIndex all_entries_ app] in Hall.
  rewrite Hall in Hn, Ht, Hf.
  split; [exact Hall|]. split; [exact Hn|]. split; [exact Ht|].
  split; [exact Hf|]. apply contains_spec.
Qed.

Example C5_name_and_kind :
  let loc := mkSourceLocation "test.cpp" 1 1 in
  let idx := index_of [ Some (ClassStub "Data" loc false);
                        Some (FunctionStub "Data" loc "void" []);
                        Some (VariableStub "config" loc "int" false false) ] in
  query idx (mkQueryFilter StubType.CLASS "Data" "")
  = [ClassStub "Data" loc false]
  /\ query idx (mkQueryFilter StubType.TYPEDEF "Data" "")
     = [ClassStub "Data" loc false; FunctionStub "Data" loc "void" []]
  /\ query idx (mkQueryFilter StubType.TYPEDEF "" "") = []
  /\ length (query idx (mkQueryFilter StubType.CLASS "" "")) = 3%nat.
Proof. repeat split. Qed.

(** The two no-filter values cannot be one value: no kind plays that role
    in both branches. *)
Lemma query_no_single_no_filter_kind :
  ~ exists any_kind,
      forall idx filter,
        query idx filter = query_by_precedence any_kind any_kind idx filter.
Proof.
  intros [any_kind Hall].
  set (loc := mkSourceLocation "test.cpp" 1 1).
  set (idx := index_of [ Some (ClassStub "Data" loc false);
                         Some (FunctionStub "Data" loc "void" []) ]).
  pose proof (Hall idx (mkQueryFilter StubType.CLASS "Data" "")) as Hname.
  pose proof (Hall idx (mkQueryFilter StubType.CLASS "" "")) as Hkind.
  destruct any_kind; vm_compute in Hname, Hkind; discriminate.
Qed.

(* ********************************************************************* *)
(** * Part IV: further properties of the code *)
(* ********************************************************************* *)

(* ===================================================================== *)
(** ** Searches and metrics *)
(* ===================================================================== *)

Lemma filter_any_node (l : list PSINode) : List.filter any_node l = l.
Proof. induction l as [|x xs IH]; [reflexivity|]. cbn. now rewrite IH. Qed.

Lemma collectNodesByType_at_spec (type : PSINodeType.t) n :
  forall result,
    collectNodesByType_at n type result
    = result
      ++ List.filter (fun m => bool_decide (getType m = type)) (preorder n).
Proof.
  induction n as [c ty tx l r s ch IH] using PSINode_tree_ind.
  intros result. cbn [collectNodesByType_at children_ preorder].
  set (node := mkPSINode c ty tx l r s ch).
  cbn [List.filter].
  assert (Hloop : forall acc,
    (fix loop (cs : list PSINode) (result : list PSINode) : list PSINode :=
       match cs with
       | [] => result
       | child :: cs' => loop cs' (collectNodesByType_at child type result)
       end) ch acc
    = acc ++ List.filter (fun m => bool_decide (getType m = type))
               (flat_map preorder ch)).
  { clear node. induction IH as [|x xs Hx _ IHxs]; intros acc.
    - cbn. now rewrite app_nil_r.
    - cbn [flat_map]. rewrite List.filter_app, Hx, IHxs.
      now rewrite app_assoc. }
  rewrite Hloop.
  destruct (decide (getType node = type)) as [Ht|Ht].
  - rewrite bool_decide_eq_true_2 by exact Ht. now rewrite <- app_assoc.
  - now rewrite bool_decide_eq_false_2 by exact Ht.
Qed.

(** The search by kind is the search by condition with the kind test:
    the same nodes in the same (pre-)order, for a null root too. *)
Theorem findAllNodes_is_condition_search
    (root : option PSINode) (type : PSINodeType.t) :
  findAllNodes root type
  = findNodesByCondition root (fun n => bool_decide (getType n = type)).
Proof.
  destruct root as [r|]; [|reflexivity].
  rewrite findNodesByCondition_spec.
  unfold findAllNodes, collectNodesByType.
  now rewrite collectNodesByType_at_spec.
Qed.

Lemma collectLeafNodes_at_spec n :
  forall result,
    collectLeafNodes_at n result
    = result ++ List.filter is_leaf (preorder n).
Proof.
  induction n as [c ty tx l r s ch IH] using PSINode_tree_ind.
  intros result. cbn [collectLeafNodes_at children_ preorder List.filter].
  unfold is_leaf at 1. cbn [children_].
  destruct IH as [|x xs Hx Hxs]; [reflexivity|].
  cbn [flat_map]. rewrite List.filter_app, Hx, app_assoc.
  generalize (result ++ List.filter is_leaf (preorder x)) as acc.
  induction Hxs as [|y ys Hy _ IHys]; intros acc.
  - cbn. now rewrite app_nil_r.
  - cbn [flat_map]. rewrite List.filter_app, Hy, IHys.
    now rewrite app_assoc.
Qed.

Lemma collectBranchNodes_at_spec n :
  forall result,
    collectBranchNodes_at n result
    = result ++ List.filter (fun m => negb (is_leaf m)) (preorder n).
Proof.
  induction n as [c ty tx l r s ch IH] using PSINode_tree_ind.
  intros result. cbn [collectBranchNodes_at children_ preorder List.filter].
  unfold is_leaf at 1. cbn [children_].
  destruct IH as [|x xs Hx Hxs]; [cbn; now rewrite app_nil_r|].
  cbn [negb flat_map]. rewrite List.filter_app, Hx.
  set (node := mkPSINode c ty tx l r s (x :: xs)).
  replace (result ++ node :: _ ++ _)
    with (((result ++ [node])
           ++ List.filter (fun m => negb (is_leaf m)) (preorder x))
          ++ List.filter (fun m => negb (is_leaf m)) (flat_map preorder xs))
    by (now rewrite <- !app_assoc).
  generalize ((result ++ [node])
              ++ List.filter (fun m => negb (is_leaf m)) (preorder x)) as acc.
  induction Hxs as [|y ys Hy _ IHys]; intros acc.
  - cbn. now rewrite app_nil_r.
  - cbn [flat_map]. rewrite List.filter_app, Hy, IHys.
    now rewrite app_assoc.
Qed.

Lemma filter_partition_length {A} (f : A -> bool) (l : list A) :
  (length (List.filter f l) + length (List.filter (fun x => negb (f x)) l)
   = length l)%nat.
Proof.
  induction l as [|x xs IH]; [reflexivity|].
  cbn. destruct (f x); cbn; lia.
Qed.

(** X1. The leaves and the branch nodes split the tree: [getLeafNodes]
    returns the nodes without children and [getBranchNodes] those with
    children, each in pre-order, and together they are as many as the
    nodes of the tree. *)
Theorem leaves_and_branches_split_the_tree (root : PSINode) :
  getLeafNodes (Some root) = findNodesByCondition (Some root) is_leaf
  /\ getBranchNodes (Some root)
     = findNodesByCondition (Some root) (fun n => negb (is_leaf n))
  /\ (length (getLeafNodes (Some root))
      + length (getBranchNodes (Some root))
      = length (findNodesByCondition (Some root) any_node))%nat
  /\ (forall n, In n (getLeafNodes (Some root)) ->
                ~ In n (getBranchNodes (Some root))).
Proof.
  rewrite !findNodesByCondition_spec, filter_any_node.
  unfold getLeafNodes, getBranchNodes, collectLeafNodes, collectBranchNodes.
  rewrite collectLeafNodes_at_spec, collectBranchNodes_at_spec.
  cbn [app]. split; [reflexivity|]. split; [reflexivity|].
  split; [apply filter_partition_length|].
  intros n Hleaf Hbranch.
  apply List.filter_In in Hleaf as [_ Hleaf].
  apply List.filter_In in Hbranch as [_ Hbranch].
  rewrite Hleaf in Hbranch. discriminate.
Qed.

Lemma wrap_int_id (z : Z) : - 2 ^ 31 <= z < 2 ^ 31 -> wrap_int z = z.
Proof.
  intros Hz. unfold wrap_int.
  rewrite Z.mod_small by lia. lia.
Qed.

Lemma calculateSubtreeSize_at_count (n : PSINode) :
  Z.of_nat (length (preorder n)) < 2 ^ 31 ->
  calculateSubtreeSize_at n = Z.of_nat (length (preorder n)).
Proof.
  induction n as [c ty tx l r s ch IH] using PSINode_tree_ind.
  cbn [calculateSubtreeSize_at children_ preorder length].
  rewrite Nat2Z.inj_succ. unfold Z.succ.
  replace (Z.of_nat (length (flat_map preorder ch)) + 1)
    with (1 + Z.of_nat (length (flat_map preorder ch))) by lia.
  assert (Hone : 0 <= 1) by lia. revert Hone.
  generalize 1 as size.
  induction IH as [|x xs Hx _ IHxs]; intros size Hsize Hbound.
  - cbn. lia.
  - cbn [flat_map] in *. rewrite length_app, Nat2Z.inj_add in *.
    rewrite Hx by lia. rewrite wrap_int_id by lia.
    rewrite IHxs by lia. lia.
Qed.

(** X2. On a tree with fewer than 2^31 nodes (so that the [int] sum does
    not overflow) [getSubtreeSize] is the number of nodes a full traversal
    returns, one more than [getAllDescendants] returns. *)
Theorem getSubtreeSize_counts_the_nodes (root : PSINode) :
  Z.of_nat (length (findNodesByCondition (Some root) any_node)) < 2 ^ 31 ->
  getSubtreeSize (Some root)
  = Z.of_nat (length (findNodesByCondition (Some root) any_node))
  /\ getSubtreeSize (Some root)
     = 1 + Z.of_nat (length (getAllDescendants (Some root))).
Proof.
  rewrite findNodesByCondition_spec, filter_any_node, getAllDescendants_spec.
  intros Hbound. unfold getSubtreeSize, calculateSubtreeSize.
  rewrite calculateSubtreeSize_at_count by exact Hbound.
  split; [reflexivity|]. rewrite preorder_unfold. cbn [length]. lia.
Qed.

Lemma getSubtreeSize_counts_the_nodes_witness :
  Z.of_nat (length (findNodesByCondition (Some C6_tree) any_node)) < 2 ^ 31
  /\ getSubtreeSize (Some C6_tree) = 4.
Proof.
  assert (Hb : Z.of_nat (length (findNodesByCondition (Some C6_tree) any_node))
               < 2 ^ 31) by (vm_compute; reflexivity).
  split; [exact Hb|].
  rewrite (proj1 (getSubtreeSize_counts_the_nodes C6_tree Hb)).
  reflexivity.
Defined.

Lemma height_le_count (n : PSINode) : (height n <= length (preorder n))%nat.
Proof.
  induction n as [c ty tx l r s ch IH] using PSINode_tree_ind.
  cbn [height preorder children_ length]. apply le_n_S.
  induction IH as [|x xs Hx _ IHxs]; [reflexivity|].
  cbn [List.map foldr flat_map]. rewrite length_app. lia.
Qed.

Lemma calculateDepth_at_height (n : PSINode) :
  Z.of_nat (height n) < 2 ^ 31 ->
  calculateDepth_at n = Z.of_nat (height n).
Proof.
  induction n as [c ty tx l r s ch IH] using PSINode_tree_ind.
  cbn [calculateDepth_at children_ height].
  intros Hbound.
  assert (Hloop : forall m,
    0 <= m ->
    (fix loop (cs : list PSINode) (max_depth : Z) : Z :=
       match cs with
       | [] => max_depth
       | child :: cs' =>
           loop cs' (Z.max max_depth (calculateDepth_at child))
       end) ch m
    = Z.max m (Z.of_nat (foldr Nat.max 0%nat (List.map height ch)))).
  { revert Hbound.
    induction IH as [|x xs Hx _ IHxs]; intros Hbound m Hm.
    - cbn. lia.
    - cbn [List.map foldr] in *. rewrite Hx by lia.
      rewrite IHxs by lia. lia. }
  destruct ch as [|x xs]; [reflexivity|].
  rewrite Hloop by lia. rewrite wrap_int_id by lia. lia.
Qed.

Lemma height_child (n child : PSINode) :
  In child (children_ n) -> (height child < height n)%nat.
Proof.
  destruct n as [c ty tx l r s ch]. cbn [children_ height].
  induction ch as [|x xs IH]; intros Hin; [destruct Hin|].
  cbn [List.map foldr]. destruct Hin as [->|Hin]; [lia|].
  specialize (IH Hin). lia.
Qed.

(** X3. On a tree with fewer than 2^31 nodes [getTreeDepth] lies between
    1 and [getSubtreeSize], is 1 for a node without children, and is
    larger for a node than for each of its children. *)
Theorem getTreeDepth_bounds (root : PSINode) :
  Z.of_nat (length (findNodesByCondition (Some root) any_node)) < 2 ^ 31 ->
  1 <= getTreeDepth (Some root) <= getSubtreeSize (Some root)
  /\ (children_ root = [] -> getTreeDepth (Some root) = 1)
  /\ (forall child,
        In child (children_ root) ->
        getTreeDepth (Some child) < getTreeDepth (Some root)).
Proof.
  rewrite findNodesByCondition_spec, filter_any_node.
  intros Hbound.
  unfold getSubtreeSize, calculateSubtreeSize.
  rewrite calculateSubtreeSize_at_count by exact Hbound.
  pose proof (height_le_count root) as Hle.
  unfold getTreeDepth, calculateDepth.
  rewrite calculateDepth_at_height by lia.
  split; [destruct root; cbn [height] in *; lia|].
  split.
  - destruct root as [c ty tx l r s ch]. cbn [children_]. now intros ->.
  - intros child Hin. pose proof (height_child root child Hin).
    rewrite calculateDepth_at_height by lia. lia.
Qed.

Lemma getTreeDepth_bounds_witness :
  Z.of_nat (length (findNodesByCondition (Some C6_tree) any_node)) < 2 ^ 31
  /\ 1 <= getTreeDepth (Some C6_tree) <= getSubtreeSize (Some C6_tree).
Proof.
  assert (Hb : Z.of_nat (length (findNodesByCondition (Some C6_tree) any_node))
               < 2 ^ 31) by (vm_compute; reflexivity).
  split; [exact Hb|].
  apply (getTreeDepth_bounds C6_tree Hb).
Defined.

Lemma filter_first {A} (f : A -> bool) (l : list A) :
  match List.filter f l with
  | [] => forall x, In x l -> f x = false
  | y :: _ =>
      f y = true
      /\ exists before after,
           l = before ++ y :: after /\ forall m, In m before -> f m = false
  end.
Proof.
  induction l as [|x xs IH]; [intros x []|].
  cbn [List.filter]. destruct (f x) eqn:Hfx.
  - split; [exact Hfx|]. exists [], xs. split; [reflexivity|]. intros m [].
  - destruct (List.filter f xs) as [|y ys].
    + intros z [<-|Hz]; [exact Hfx|now apply IH].
    + destruct IH as (Hy & before & after & -> & Hbefore).
      split; [exact Hy|]. exists (x :: before), after.
      split; [reflexivity|]. intros m [<-|Hm]; [exact Hfx|now apply Hbefore].
Qed.

(** X4. [findFirstNodeByName] returns null exactly when no node of the
    tree has the text, and otherwise the first node in pre-order that has
    it. *)
Theorem findFirstNodeByName_first_in_preorder
    (root : PSINode) (name : string) :
  match findFirstNodeByName (Some root) name with
  | None =>
      forall n, In n (findNodesByCondition (Some root) any_node) ->
                getText n <> name
  | Some found =>
      getText found = name
      /\ exists before after,
           findNodesByCondition (Some root) any_node
           = before ++ found :: after
           /\ forall m, In m before -> getText m <> name
  end.
Proof.
  unfold findFirstNodeByName, findNodesByName.
  rewrite !findNodesByCondition_spec, filter_any_node.
  pose proof (filter_first (fun node => bool_decide (getText node = name))
                (preorder root)) as Hfirst.
  destruct (List.filter _ (preorder root)) as [|y ys].
  - intros n Hn. specialize (Hfirst n Hn).
    now apply bool_decide_eq_false in Hfirst.
  - destruct Hfirst as (Hy & before & after & Heq & Hbefore).
    apply bool_decide_eq_true in Hy. split; [exact Hy|].
    exists before, after. split; [exact Heq|].
    intros m Hm. specialize (Hbefore m Hm).
    now apply bool_decide_eq_false in Hbefore.
Qed.

(** [findNodesInLineRange] keeps the nodes whose line lies between
    the two bounds, both included; with the bounds the wrong way round it
    returns nothing. *)
Theorem findNodesInLineRange_inclusive
    (root : PSINode) (start_line end_line : Z) :
  (forall n,
      In n (findNodesInLineRange (Some root) start_line end_line)
      <-> In n (findNodesByCondition (Some root) any_node)
          /\ start_line <= line (getLocation n) <= end_line)
  /\ (end_line < start_line ->
      findNodesInLineRange (Some root) start_line end_line = []).
Proof.
  unfold findNodesInLineRange.
  rewrite !findNodesByCondition_spec, filter_any_node.
  assert (Hin : forall n,
    In n (List.filter
            (fun node =>
               let l := line (getLocation node) in
               (start_line <=? l) && (l <=? end_line)) (preorder root))
    <-> In n (preorder root)
        /\ start_line <= line (getLocation n) <= end_line).
  { intros n. rewrite List.filter_In. cbn zeta.
    rewrite andb_true_iff, !Z.leb_le. tauto. }
  split; [exact Hin|]. intros Hwrong.
  remember (List.filter _ (preorder root)) as found eqn:Hf.
  destruct found as [|y ys]; [reflexivity|].
  assert (Hy : In y (y :: ys)) by apply in_eq.
  apply Hin in Hy. lia.
Qed.

(* ===================================================================== *)
(** ** Queries *)
(* ===================================================================== *)

Lemma execute_spec (root : PSINode) (fs : list (PSINode -> bool)) :
  execute (mkPSITreeQuery (Some root) fs)
  = List.filter (fun n => forallb (fun f => f n) fs) (preorder root).
Proof.
  unfold execute. cbn [root_]. rewrite findNodesByCondition_spec.
  apply List.filter_ext. intros n. apply matchesFilters_forallb.
Qed.

(** X5. A query without filters returns the whole tree in pre-order: the
    root, then what [getAllDescendants] returns; [count] is the number of
    nodes; on a null root the query returns nothing. *)
Theorem query_without_filters_is_full_traversal (root : PSINode) :
  execute (new_PSITreeQuery (Some root))
  = root :: getAllDescendants (Some root)
  /\ execute (new_PSITreeQuery (Some root))
     = findNodesByCondition (Some root) any_node
  /\ count (new_PSITreeQuery (Some root))
     = S (length (getAllDescendants (Some root)))
  /\ first (new_PSITreeQuery (Some root)) = Some root
  /\ (forall fs, execute (mkPSITreeQuery None fs) = []).
Proof.
  assert (Hex : execute (new_PSITreeQuery (Some root))
                = root :: getAllDescendants (Some root)).
  { unfold new_PSITreeQuery. rewrite execute_spec. cbn [forallb].
    change (fun _ : PSINode => true) with any_node.
    now rewrite filter_any_node, getAllDescendants_spec, preorder_unfold. }
  unfold count, first. rewrite Hex.
  rewrite findNodesByCondition_spec, filter_any_node, getAllDescendants_spec.
  rewrite <- preorder_unfold. repeat split.
  now rewrite preorder_unfold.
Qed.

Lemma filter_filter {A} (f g : A -> bool) (l : list A) :
  List.filter f (List.filter g l) = List.filter (fun x => g x && f x) l.
Proof.
  induction l as [|x xs IH]; [reflexivity|].
  cbn. destruct (g x); cbn; [destruct (f x)|]; now rewrite IH.
Qed.

Lemma forallb_permutation {A} (p : A -> bool) (l1 l2 : list A) :
  Permutation l1 l2 -> forallb p l1 = forallb p l2.
Proof.
  induction 1 as [|x l l' _ IH|x y l|l l' l'' _ IH1 _ IH2]; cbn.
  - reflexivity.
  - now rewrite IH.
  - destruct (p x), (p y); reflexivity.
  - now rewrite IH1.
Qed.

(** X6. Chained filters are a conjunction: adding a filter to a query
    filters the result the query had, and the order in which the filters
    were added does not matter. *)
Theorem query_filters_are_a_conjunction (q : PSITreeQuery) :
  (forall f, execute (push_filter q f) = List.filter f (execute q))
  /\ (forall fs,
        Permutation (filters_ q) fs ->
        execute (mkPSITreeQuery (root_ q) fs) = execute q)
  /\ (forall n,
        In n (execute q)
        <-> In n (findNodesByCondition (root_ q) any_node)
            /\ forall f, In f (filters_ q) -> f n = true).
Proof.
  destruct q as [[root|] fs].
  - split; [|split].
    + intros f. unfold push_filter. cbn [root_ filters_].
      rewrite !execute_spec, filter_filter.
      apply List.filter_ext. intros n.
      now rewrite forallb_app; cbn; rewrite andb_true_r.
    + intros fs' Hperm. cbn [root_ filters_] in *.
      rewrite !execute_spec. apply List.filter_ext. intros n.
      symmetry. now apply forallb_permutation.
    + intros n. rewrite execute_spec. cbn [root_ filters_].
      rewrite findNodesByCondition_spec, filter_any_node.
      rewrite List.filter_In, forallb_forall. tauto.
  - split; [|split]; try reflexivity.
    intros n. cbn. tauto.
Qed.

(** X7. A query with one filter is the matching search of
    [PSITreeOperations]: [ofType] is [findAllNodes], [withName] is
    [findNodesByName], [inFile] is [findNodesInFile], [inLineRange] is
    [findNodesInLineRange]. *)
Theorem single_filter_queries_are_the_searches (root : PSINode) :
  (forall type,
      execute (ofType type (new_PSITreeQuery (Some root)))
      = findAllNodes (Some root) type)
  /\ (forall name,
        execute (withName name (new_PSITreeQuery (Some root)))
        = findNodesByName (Some root) name)
  /\ (forall path,
        execute (inFile path (new_PSITreeQuery (Some root)))
        = findNodesInFile (Some root) path)
  /\ (forall lo hi,
        execute (inLineRange lo hi (new_PSITreeQuery (Some root)))
        = findNodesInLineRange (Some root) lo hi).
Proof.
  assert (Hone : forall f : PSINode -> bool,
    execute (push_filter (new_PSITreeQuery (Some root)) f)
    = findNodesByCondition (Some root) f).
  { intros f. unfold push_filter, new_PSITreeQuery. cbn [root_ filters_ app].
    rewrite execute_spec, findNodesByCondition_spec.
    apply List.filter_ext. intros n. cbn. now rewrite andb_true_r. }
  split; [|split; [|split]].
  - intros type. unfold ofType. rewrite Hone, findNodesByCondition_spec.
    unfold findAllNodes, collectNodesByType.
    now rewrite collectNodesByType_at_spec.
  - intros name. apply Hone.
  - intros path. apply Hone.
  - intros lo hi. apply Hone.
Qed.

Lemma group_fold_lookup (label : PSINode -> string) (key : string)
    (nodes : list PSINode) :
  forall groups : gmap string nat,
    fold_left (fun groups node => group_incr (label node) groups)
              nodes groups !! key
    = match groups !! key, label_count label key nodes with
      | Some v, k => Some (v + k)%nat
      | None, O => None
      | None, k => Some k
      end.
Proof.
  unfold label_count.
  induction nodes as [|x xs IH]; intros groups.
  - cbn. destruct (groups !! key); [f_equal; lia|reflexivity].
  - cbn [fold_left List.filter]. rewrite IH. unfold group_incr.
    destruct (decide (label x = key)) as [Hk|Hk].
    + rewrite bool_decide_eq_true_2 by exact Hk. subst key.
      rewrite lookup_insert_eq. cbn [length].
      destruct (groups !! label x); cbn; f_equal; lia.
    + rewrite bool_decide_eq_false_2 by exact Hk.
      now rewrite lookup_insert_ne by exact Hk.
Qed.

(** X8. [groupByName] maps a text to the number of results with that
    text and holds no entry for a text no result has; [groupByType] does
    the same for the kind label, which is one of five: every kind other
    than CLASS, FUNCTION, VARIABLE and NAMESPACE (FILE and STRUCT too)
    is tallied under "Unknown". *)
Theorem grouping_counts_the_results (q : PSITreeQuery) (key : string) :
  groupByName q !! key
  = (if decide (label_count getText key (execute q) = 0%nat) then None
     else Some (label_count getText key (execute q)))
  /\ groupByType q !! key
     = (if decide (label_count group_type_name key (execute q) = 0%nat)
        then None
        else Some (label_count group_type_name key (execute q)))
  /\ (is_Some (groupByType q !! key) ->
      In key ["Class"; "Function"; "Variable"; "Namespace"; "Unknown"])
  /\ (forall n,
        getType n = PSINodeType.STRUCT \/ getType n = PSINodeType.FILE ->
        group_type_name n = "Unknown").
Proof.
  unfold groupByName, groupByType. rewrite !group_fold_lookup.
  rewrite !lookup_empty.
  split; [now destruct (label_count getText key (execute q))|].
  split; [now destruct (label_count group_type_name key (execute q))|].
  split.
  - unfold label_count.
    destruct (List.filter _ (execute q)) as [|n ns] eqn:Hf;
      [intros [v Hv]; discriminate|].
    intros _. assert (Hn : In n (n :: ns)) by apply in_eq.
    rewrite <- Hf in Hn. apply List.filter_In in Hn as [_ Hn].
    apply bool_decide_eq_true in Hn. subst key.
    unfold group_type_name. destruct (getType n); cbn; tauto.
  - intros n [Hn|Hn]; unfold group_type_name; now rewrite Hn.
Qed.

(* ===================================================================== *)
(** ** Paths *)
(* ===================================================================== *)


Lemma string_app_assoc (a b c : string) : (a +:+ b) +:+ c = a +:+ b +:+ c.
Proof.
  induction a as [|x a IH]; [reflexivity|].
  now rewrite !string_app_cons, IH.
Qed.






Example findNodeByPath_finds_inner :
  findNodeByPath (Some C6_tree) "/ns//Inner/"
  = Mem.Returns
      (Some (new_PSINode PSINodeType.CLASS "Inner"
               (mkSourceLocation "t.cpp" 1 1)))
  /\ findNodeByPath (Some C6_tree) "t.cpp/ns/Inner" = Mem.Returns None.
Proof. split; reflexivity. Qed.

(* ===================================================================== *)
(** ** The other transforms *)
(* ===================================================================== *)

Lemma cloneAndSimplify_at_spec n :
  cloneAndSimplify_at n = Some (semantic_clone_of n).
Proof.
  induction n as [c ty tx l r s ch IH] using PSINode_tree_ind.
  cbn [cloneAndSimplify_at semantic_clone_of children_ type_ text_ location_
       semantic_info_ getType getText getLocation].
  f_equal. unfold copy_with_semantic_info.
  cbn [getType getText getLocation type_ text_ location_ semantic_info_].
  set (mk := mkPSINode PSINodeBase ty tx l (mkTextRange 0 0) s).
  change (List.map semantic_clone_of ch)
    with ([] ++ List.map semantic_clone_of ch).
  generalize (@nil PSINode) as done.
  induction IH as [|x xs Hx _ IHxs]; intros done.
  - now rewrite app_nil_r.
  - rewrite Hx. cbn [List.map].
    replace (done ++ semantic_clone_of x :: List.map semantic_clone_of xs)
      with ((done ++ [semantic_clone_of x])
            ++ List.map semantic_clone_of xs)
      by now rewrite <- app_assoc.
    rewrite <- IHxs. reflexivity.
Qed.

Lemma transform_copy_is_semantic_clone n :
  transformNode_at n (fun node => Some (copy_with_semantic_info node))
  = Some (semantic_clone_of n).
Proof.
  induction n as [c ty tx l r s ch IH] using PSINode_tree_ind.
  assert (Hch :
    omap (fun c =>
            transformNode_at c
              (fun node => Some (copy_with_semantic_info node))) ch
    = List.map semantic_clone_of ch).
  { induction IH as [|x xs Hx _ IHxs]; [reflexivity|].
    cbn [omap list_omap List.map]. now rewrite Hx, IHxs. }
  rewrite transformNode_at_unfold. cbn [children_]. rewrite Hch.
  reflexivity.
Qed.

(** X10. [overlayTrees] never looks into the overlay tree and
    [flattenHierarchy] never uses the depth: both, and
    [reorganizeByNamespace], return what [cloneAndSimplify] returns for the
    (base) tree, null for a null one. *)
Theorem overlay_flatten_reorganize_are_clones
    (base overlay : option PSINode) (max_depth : Z) :
  overlayTrees base overlay = cloneAndSimplify base
  /\ flattenHierarchy base max_depth = cloneAndSimplify base
  /\ reorganizeByNamespace base = cloneAndSimplify base.
Proof.
  destruct base as [b|]; [|now destruct overlay].
  unfold overlayTrees, flattenHierarchy, reorganizeByNamespace,
    transformTree, transformNode, cloneAndSimplify.
  rewrite transform_copy_is_semantic_clone, cloneAndSimplify_at_spec.
  now destruct overlay.
Qed.

Lemma semantic_clone_of_fields n :
  List.map (fun m => (getType m, getText m, getLocation m, semantic_info_ m))
           (preorder (semantic_clone_of n))
  = List.map (fun m => (getType m, getText m, getLocation m,
                        semantic_info_ m))
             (preorder n).
Proof.
  induction n as [c ty tx l r s ch IH] using PSINode_tree_ind.
  cbn [semantic_clone_of preorder children_ type_ text_ location_
       semantic_info_ List.map getType getText getLocation].
  f_equal.
  induction IH as [|x xs Hx _ IHxs]; [reflexivity|].
  cbn [List.map flat_map]. rewrite !List.map_app, Hx. now f_equal.
Qed.

Lemma semantic_clone_of_plain n :
  Forall plain (preorder (semantic_clone_of n)).
Proof.
  induction n as [c ty tx l r s ch IH] using PSINode_tree_ind.
  cbn [semantic_clone_of preorder children_].
  constructor; [split; reflexivity|].
  induction IH as [|x xs Hx _ IHxs]; [constructor|].
  cbn [List.map flat_map]. apply Forall_app. now split.
Qed.

Lemma semantic_clone_of_fixed n :
  Forall plain (preorder n) -> semantic_clone_of n = n.
Proof.
  induction n as [c ty tx l r s ch IH] using PSINode_tree_ind.
  cbn [preorder children_ semantic_clone_of type_ text_ location_
       semantic_info_].
  intros Hplain. apply Forall_cons in Hplain as [[Hc Hr] Hch].
  cbn in Hc, Hr. subst c r. f_equal.
  induction IH as [|x xs Hx _ IHxs]; [reflexivity|].
  cbn [flat_map] in Hch. apply Forall_app in Hch as [Hx' Hxs'].
  cbn [List.map]. rewrite Hx by exact Hx'. now rewrite IHxs.
Qed.

(** X11. [cloneAndSimplify] keeps, node by node in pre-order, the type,
    text, location and semantic info; every node of the result is a plain
    [PSINode] with the text range (0, 0), whatever class and range the
    original had; and cloning the result again returns it unchanged. *)
Theorem cloneAndSimplify_keeps_semantic_info (root : PSINode) :
  exists clone,
    cloneAndSimplify (Some root) = Some clone
    /\ List.map
         (fun m => (getType m, getText m, getLocation m, semantic_info_ m))
         (findNodesByCondition (Some clone) any_node)
       = List.map
           (fun m => (getType m, getText m, getLocation m, semantic_info_ m))
           (findNodesByCondition (Some root) any_node)
    /\ Forall plain (findNodesByCondition (Some clone) any_node)
    /\ cloneAndSimplify (Some clone) = Some clone.
Proof.
  exists (semantic_clone_of root).
  rewrite !findNodesByCondition_spec, !filter_any_node.
  cbn [cloneAndSimplify]. rewrite !cloneAndSimplify_at_spec.
  split; [reflexivity|]. split; [apply semantic_clone_of_fields|].
  split; [apply semantic_clone_of_plain|].
  f_equal. apply semantic_clone_of_fixed, semantic_clone_of_plain.
Qed.

Lemma clone_of_bare n :
  Forall (fun m => plain m /\ semantic_info_ m = ∅) (preorder (clone_of n)).
Proof.
  induction n as [c ty tx l r s ch IH] using PSINode_tree_ind.
  cbn [clone_of preorder children_].
  constructor; [repeat split|].
  induction IH as [|x xs Hx _ IHxs]; [constructor|].
  cbn [List.map flat_map]. apply Forall_app. now split.
Qed.

Lemma clone_of_fixed n :
  Forall (fun m => plain m /\ semantic_info_ m = ∅) (preorder n) ->
  clone_of n = n.
Proof.
  induction n as [c ty tx l r s ch IH] using PSINode_tree_ind.
  cbn [preorder children_ clone_of type_ text_ location_].
  intros Hbare. apply Forall_cons in Hbare as [[[Hc Hr] Hs] Hch].
  cbn in Hc, Hr, Hs. subst c r s. f_equal.
  induction IH as [|x xs Hx _ IHxs]; [reflexivity|].
  cbn [flat_map] in Hch. apply Forall_app in Hch as [Hx' Hxs'].
  cbn [List.map]. rewrite Hx by exact Hx'. now rewrite IHxs.
Qed.

Lemma clone_of_locations n :
  List.map getLocation (preorder (clone_of n))
  = List.map getLocation (preorder n).
Proof.
  induction n as [c ty tx l r s ch IH] using PSINode_tree_ind.
  cbn [clone_of preorder children_ location_ List.map getLocation].
  f_equal.
  induction IH as [|x xs Hx _ IHxs]; [reflexivity|].
  cbn [List.map flat_map]. rewrite !List.map_app, Hx. now f_equal.
Qed.

(** X12. [cloneSubtree] drops the semantic info and the node class:
    every node of the clone is a plain [PSINode] with an empty
    semantic-info map and the text range (0, 0); the locations are kept in
    pre-order; a clone of a clone is the clone. *)
Theorem cloneSubtree_drops_semantic_info (root : PSINode) :
  exists clone,
    cloneSubtree (Some root) = Some clone
    /\ Forall (fun m => plain m /\ semantic_info_ m = ∅
                        /\ forall key, hasSemanticInfo m key = false)
              (findNodesByCondition (Some clone) any_node)
    /\ List.map getLocation (findNodesByCondition (Some clone) any_node)
       = List.map getLocation (findNodesByCondition (Some root) any_node)
    /\ cloneSubtree (Some clone) = Some clone.
Proof.
  exists (clone_of root).
  rewrite !findNodesByCondition_spec, !filter_any_node.
  cbn [cloneSubtree]. rewrite !cloneSubtree_at_spec.
  pose proof (clone_of_bare root) as Hbare.
  split; [reflexivity|]. split; [|split; [apply clone_of_locations|]].
  - eapply Forall_impl; [exact Hbare|]. intros m [Hp Hs].
    split; [exact Hp|]. split; [exact Hs|]. intros key.
    unfold hasSemanticInfo. rewrite Hs, lookup_empty.
    apply bool_decide_eq_false. intros [v Hv]. discriminate.
  - f_equal. now apply clone_of_fixed.
Qed.

Lemma preorder_with_children r kids :
  preorder (with_children r kids)
  = with_children r kids :: flat_map preorder kids.
Proof. now destruct r. Qed.

(** Every node of the output of a transform whose replacements have no
    children has a property that all replacements have, whatever children
    they are given. *)
Lemma transformNode_at_Forall (f : PSINode -> option PSINode)
    (P : PSINode -> Prop) :
  (forall n r, f n = Some r ->
               children_ r = [] /\ forall kids, P (with_children r kids)) ->
  forall n out,
    transformNode_at n f = Some out -> Forall P (preorder out).
Proof.
  intros Hf.
  induction n as [c ty tx l rg s ch IH] using PSINode_tree_ind.
  assert (Hkids :
    Forall P (flat_map preorder
                (omap (fun c => transformNode_at c f) ch))).
  { induction IH as [|x xs Hx _ IHxs]; [constructor|].
    cbn [omap list_omap].
    destruct (transformNode_at x f) as [tx'|] eqn:Hx'; [|exact IHxs].
    cbn [flat_map]. apply Forall_app. split; [now apply Hx|exact IHxs]. }
  intros out. rewrite transformNode_at_unfold.
  destruct (f _) as [r|] eqn:Hr; [|discriminate].
  intros [= <-]. destruct (Hf _ _ Hr) as [Hnil HP].
  rewrite Hnil, preorder_with_children. cbn [app children_].
  constructor; [apply HP|exact Hkids].
Qed.

Lemma remove_transformer_fixed (type_to_remove : PSINodeType.t) n :
  Forall (fun m => plain m /\ getType m <> type_to_remove) (preorder n) ->
  transformNode_at n (remove_transformer type_to_remove) = Some n.
Proof.
  induction n as [c ty tx l r s ch IH] using PSINode_tree_ind.
  cbn [preorder children_]. intros Hall.
  apply Forall_cons in Hall as [[[Hc Hr] Hty] Hch].
  cbn in Hc, Hr, Hty. subst c r.
  assert (Hkids :
    omap (fun c => transformNode_at c (remove_transformer type_to_remove)) ch
    = ch).
  { induction IH as [|x xs Hx _ IHxs]; [reflexivity|].
    cbn [flat_map] in Hch. apply Forall_app in Hch as [Hx' Hxs'].
    cbn [omap list_omap]. rewrite Hx by exact Hx'. now rewrite IHxs. }
  rewrite transformNode_at_unfold. cbn [children_]. rewrite Hkids.
  unfold remove_transformer. cbn [getType type_].
  destruct (decide (ty = type_to_remove)); [contradiction|reflexivity].
Qed.

Lemma remove_transformer_absent (type_to_remove : PSINodeType.t) n :
  Forall (fun m => getType m <> type_to_remove) (preorder n) ->
  transformNode_at n (remove_transformer type_to_remove)
  = Some (semantic_clone_of n).
Proof.
  induction n as [c ty tx l r s ch IH] using PSINode_tree_ind.
  cbn [preorder children_]. intros Hall.
  apply Forall_cons in Hall as [Hty Hch]. cbn in Hty.
  assert (Hkids :
    omap (fun c => transformNode_at c (remove_transformer type_to_remove)) ch
    = List.map semantic_clone_of ch).
  { induction IH as [|x xs Hx _ IHxs]; [reflexivity|].
    cbn [flat_map] in Hch. apply Forall_app in Hch as [Hx' Hxs'].
    cbn [omap list_omap List.map]. rewrite Hx by exact Hx'.
    now rewrite IHxs. }
  rewrite transformNode_at_unfold. cbn [children_]. rewrite Hkids.
  unfold remove_transformer. cbn [getType type_].
  destruct (decide (ty = type_to_remove)); [contradiction|reflexivity].
Qed.

(** X13. [removeNodesByType] returns null exactly when the root has the
    type; otherwise no node of the result has the type, every node of the
    result is a plain [PSINode], and removing the type from the result
    again changes nothing.  On a tree without a node of the type it
    returns what [cloneAndSimplify] returns. *)
Theorem removeNodesByType_removes_the_type
    (root : PSINode) (type_to_remove : PSINodeType.t) :
  (removeNodesByType (Some root) type_to_remove = None
   <-> getType root = type_to_remove)
  /\ (forall out,
        removeNodesByType (Some root) type_to_remove = Some out ->
        Forall (fun m => plain m /\ getType m <> type_to_remove)
               (findNodesByCondition (Some out) any_node)
        /\ removeNodesByType (Some out) type_to_remove = Some out)
  /\ (Forall (fun m => getType m <> type_to_remove)
             (findNodesByCondition (Some root) any_node) ->
      removeNodesByType (Some root) type_to_remove
      = cloneAndSimplify (Some root)).
Proof.
  unfold removeNodesByType, transformTree, transformNode.
  change (fun node : PSINode =>
            if decide (getType node = type_to_remove) then None
            else Some (copy_with_semantic_info node))
    with (remove_transformer type_to_remove).
  split; [|split].
  - rewrite transformNode_at_unfold. unfold remove_transformer.
    destruct (decide (getType root = type_to_remove)); split;
      congruence || discriminate.
  - intros out Hout.
    rewrite findNodesByCondition_spec, filter_any_node.
    assert (Hall : Forall (fun m => plain m /\ getType m <> type_to_remove)
                          (preorder out)).
    { apply (transformNode_at_Forall (remove_transformer type_to_remove)
               _) with (n := root); [|exact Hout].
      intros n r. unfold remove_transformer.
      destruct (decide (getType n = type_to_remove)) as [|Hne];
        [discriminate|].
      intros [= <-]. split; [reflexivity|]. intros kids.
      repeat split. exact Hne. }
    split; [exact Hall|]. now apply remove_transformer_fixed.
  - rewrite findNodesByCondition_spec, filter_any_node. intros Habsent.
    cbn [cloneAndSimplify]. rewrite cloneAndSimplify_at_spec.
    now apply remove_transformer_absent.
Qed.

(** X14. [simplifyTree] returns null exactly when the root is not of kind
    FILE, CLASS, FUNCTION or VARIABLE (a STRUCT root gives null); every
    node of a result is a plain [PSINode] of one of these four kinds with
    an empty semantic-info map and without the text range it had. *)
Theorem simplifyTree_keeps_four_kinds (root : PSINode) :
  (simplifyTree (Some root) = None <-> simplify_keeps (getType root) = false)
  /\ (getType root = PSINodeType.STRUCT -> simplifyTree (Some root) = None)
  /\ (forall out,
        simplifyTree (Some root) = Some out ->
        Forall (fun m => plain m /\ semantic_info_ m = ∅
                         /\ simplify_keeps (getType m) = true)
               (findNodesByCondition (Some out) any_node)).
Proof.
  unfold simplifyTree, transformTree, transformNode.
  set (f := fun node : PSINode =>
              match getType node with
              | PSINodeType.FILE | PSINodeType.CLASS
              | PSINodeType.FUNCTION | PSINodeType.VARIABLE =>
                  Some (new_PSINode (getType node) (getText node)
                          (getLocation node))
              | _ => None
              end).
  assert (Hroot : transformNode_at root f = None
                  <-> simplify_keeps (getType root) = false).
  { rewrite transformNode_at_unfold. unfold f.
    destruct (getType root); cbn; split; congruence || discriminate. }
  split; [exact Hroot|]. split.
  - intros Hstruct. apply Hroot. now rewrite Hstruct.
  - intros out Hout. rewrite findNodesByCondition_spec, filter_any_node.
    apply (transformNode_at_Forall f _) with (n := root); [|exact Hout].
    intros n r Hr. unfold f in Hr.
    destruct (getType n) eqn:Hty; try discriminate;
      injection Hr as <-; (split; [reflexivity|]); intros kids;
      repeat split.
Qed.

Lemma merge_children_fold (kids : list PSINode) :
  forall merged,
    fold_left
      (fun merged_root child =>
         let cloned_child := cloneAndSimplify (Some child) in
         match cloned_child with
         | Some _ => addChild merged_root cloned_child
         | None => merged_root
         end) kids merged
    = with_children merged
        (children_ merged ++ List.map semantic_clone_of kids).
Proof.
  induction kids as [|k ks IH]; intros merged.
  - cbn. now rewrite app_nil_r, with_children_id.
  - cbn [fold_left cloneAndSimplify]. rewrite cloneAndSimplify_at_spec, IH.
    destruct merged. cbn. now rewrite <- app_assoc.
Qed.

Lemma merge_trees_fold (trees : list (option PSINode)) :
  forall merged,
    fold_left
      (fun merged_root tree =>
         match tree with
         | Some t =>
             fold_left
               (fun merged_root child =>
                  let cloned_child := cloneAndSimplify (Some child) in
                  match cloned_child with
                  | Some _ => addChild merged_root cloned_child
                  | None => merged_root
                  end)
               (children_ t) merged_root
         | None => merged_root
         end) trees merged
    = with_children merged
        (children_ merged
         ++ List.map semantic_clone_of (flat_map children_of_opt trees)).
Proof.
  induction trees as [|t ts IH]; intros merged.
  - cbn. now rewrite app_nil_r, with_children_id.
  - cbn [fold_left flat_map]. rewrite IH. destruct t as [t|].
    + rewrite merge_children_fold. destruct merged. cbn.
      now rewrite List.map_app, <- app_assoc.
    + reflexivity.
Qed.

(** X15. [mergeTrees] of no trees is null.  Otherwise it is a new plain
    File node with the text "merged" whose children are the
    [cloneAndSimplify] copies of the children of the input trees, tree
    after tree in order; the roots of the inputs are not in it, and null
    trees add nothing, so a list of null trees gives a root without
    children. *)
Theorem mergeTrees_merges_the_children (trees : list (option PSINode)) :
  mergeTrees [] = None
  /\ (trees <> [] ->
      exists merged,
        mergeTrees trees = Some merged
        /\ plain merged
        /\ getType merged = PSINodeType.FILE
        /\ getText merged = "merged"
        /\ List.map Some (children_ merged)
           = List.map (fun c => cloneAndSimplify (Some c))
               (flat_map children_of_opt trees)
        /\ length (children_ merged)
           = length (flat_map children_of_opt trees)).
Proof.
  split; [reflexivity|]. intros Hne.
  destruct trees as [|t ts]; [contradiction|].
  unfold mergeTrees. rewrite merge_trees_fold.
  eexists. split; [reflexivity|]. cbn [with_children new_PSINode children_
    node_class type_ text_ text_range_ getType getText app].
  split; [split; reflexivity|]. split; [reflexivity|].
  split; [reflexivity|]. split.
  - rewrite List.map_map. apply List.map_ext. intros c.
    cbn [cloneAndSimplify]. now rewrite cloneAndSimplify_at_spec.
  - now rewrite length_map.
Qed.

Lemma transformNode_at_size (f : PSINode -> option PSINode) :
  (forall n r, f n = Some r -> children_ r = []) ->
  forall n out,
    transformNode_at n f = Some out ->
    (length (preorder out) <= length (preorder n))%nat.
Proof.
  intros Hf.
  induction n as [c ty tx l rg s ch IH] using PSINode_tree_ind.
  assert (Hkids :
    (length (flat_map preorder (omap (fun c => transformNode_at c f) ch))
     <= length (flat_map preorder ch))%nat).
  { induction IH as [|x xs Hx _ IHxs]; [reflexivity|].
    cbn [omap list_omap flat_map]. rewrite length_app.
    destruct (transformNode_at x f) as [tx'|] eqn:Hx'.
    - cbn [flat_map]. rewrite length_app.
      specialize (Hx _ eq_refl). lia.
    - lia. }
  intros out. rewrite transformNode_at_unfold.
  destruct (f _) as [r|] eqn:Hr; [|discriminate].
  intros [= <-]. rewrite (Hf _ _ Hr), preorder_with_children.
  cbn [app children_ preorder length]. lia.
Qed.

(** X16. A transform whose transformer answers with nodes that have no
    children (as all the canned ones do) never grows a tree: the result
    has at most as many nodes as the input. *)
Theorem transformTree_never_grows
    (f : PSINode -> option PSINode) (root out : PSINode) :
  (forall n r, f n = Some r -> children_ r = []) ->
  transformTree (Some root) f = Some out ->
  (length (findNodesByCondition (Some out) any_node)
   <= length (findNodesByCondition (Some root) any_node))%nat.
Proof.
  intros Hf Hout. rewrite !findNodesByCondition_spec, !filter_any_node.
  now apply (transformNode_at_size f Hf root out).
Qed.

Lemma transformTree_never_grows_witness :
  (forall n r, remove_transformer PSINodeType.NAMESPACE n = Some r ->
               children_ r = [])
  /\ transformTree (Some C6_tree)
                   (remove_transformer PSINodeType.NAMESPACE)
     = Some (with_children
               (new_PSINode PSINodeType.FILE "t.cpp"
                            (mkSourceLocation "t.cpp" 1 1))
               [new_PSINode PSINodeType.FUNCTION "main"
                            (mkSourceLocation "t.cpp" 1 1)])
  /\ (length (findNodesByCondition
               (Some (with_children
                        (new_PSINode PSINodeType.FILE "t.cpp"
                                     (mkSourceLocation "t.cpp" 1 1))
                        [new_PSINode PSINodeType.FUNCTION "main"
                                     (mkSourceLocation "t.cpp" 1 1)]))
               any_node)
      <= length (findNodesByCondition (Some C6_tree) any_node))%nat.
Proof.
  assert (Hf : forall n r,
             remove_transformer PSINodeType.NAMESPACE n = Some r ->
             children_ r = []).
  { intros n r. unfold remove_transformer.
    destruct (decide _); [discriminate|]. now intros [= <-]. }
  split; [exact Hf|]. split; [reflexivity|].
  apply (transformTree_never_grows
           (remove_transformer PSINodeType.NAMESPACE) C6_tree _ Hf).
  reflexivity.
Defined.

(* ===================================================================== *)
(** ** Node objects: attaching, detaching, moving *)
(* ===================================================================== *)

Section NodeObjects.
Import Mem Nav.

(** X17. [addChild] makes the node the parent of the child and puts the
    child at the end of the node's children; every other node object is
    left as it was, so a previous parent of the child still has it among
    its children.  A null child changes nothing. *)
Theorem addChild_links_without_detaching
    (h : Heap) (this child : addr) (ct cc : Cell) :
  h !! this = Some ct -> h !! child = Some cc -> child <> this ->
  addChild h this None = Returns h
  /\ exists h',
       addChild h this (Some child) = Returns h'
       /\ h' !! child = Some (set_parent cc (Some this))
       /\ h' !! this = Some (set_children ct (children_ ct ++ [child]))
       /\ (forall other,
             other <> this -> other <> child -> h' !! other = h !! other)
       /\ (forall old co,
             parent_ cc = Some old -> old <> this -> old <> child ->
             h !! old = Some co -> child ∈ children_ co ->
             exists co', h' !! old = Some co' /\ child ∈ children_ co').
Proof.
  intros Hthis Hchild Hne. split; [reflexivity|].
  eexists. split.
  - unfold addChild, setParent, push_back_child, mbind, outcome_bind.
    rewrite Hchild. simplify_map_eq. reflexivity.
  - split; [now simplify_map_eq|]. split; [now simplify_map_eq|]. split.
    + intros other H1 H2. now simplify_map_eq.
    + intros old co _ H1 H2 Hold Hin. exists co.
      split; [now simplify_map_eq|exact Hin].
Qed.

Lemma addChild_links_without_detaching_witness :
  C3_heap !! 0%nat
  = Some (mkCell PSINodeType.FILE "root.cpp" None [1%nat])
  /\ C3_heap !! 2%nat = Some (mkCell PSINodeType.CLASS "A" (Some 1%nat) [])
  /\ 2%nat <> 0%nat
  /\ addChild C3_heap 0%nat None = Returns C3_heap.
Proof.
  split; [reflexivity|]. split; [reflexivity|]. split; [discriminate|].
  apply (addChild_links_without_detaching C3_heap 0%nat 2%nat
           (mkCell PSINodeType.FILE "root.cpp" None [1%nat])
           (mkCell PSINodeType.CLASS "A" (Some 1%nat) []));
    [reflexivity|reflexivity|discriminate].
Defined.



Lemma set_parent_twice (c : Cell) (p q : option addr) :
  set_parent (set_parent c p) q = set_parent c q.
Proof. reflexivity. Qed.




(** [removeNode] does nothing for a null node and for a node without
    parent.  Without [keep_children] it changes one thing only: the first
    occurrence of the node leaves the children of its parent.  The node
    keeps its parent pointer and its children. *)
Theorem removeNode_only_edits_the_parent
    (h : Heap) (node : addr) (cn : Cell) (keep_children : bool) :
  h !! node = Some cn ->
  removeNode h None keep_children = Returns h
  /\ (parent_ cn = None ->
      removeNode h (Some node) keep_children = Returns h)
  /\ (forall p cp,
        parent_ cn = Some p -> h !! p = Some cp ->
        removeNode h (Some node) false
        = Returns (<[p := set_children cp
                             (erase_first node (children_ cp))]> h)).
Proof.
  intros Hnode. split; [reflexivity|]. split.
  - intros Hroot. unfold removeNode, getParent, deref, mbind, outcome_bind.
    now rewrite Hnode, Hroot.
  - intros p cp Hp Hcp.
    unfold removeNode, getParent, deref, mbind, outcome_bind.
    now rewrite Hnode, Hp, Hcp.
Qed.

Lemma removeNode_only_edits_the_parent_witness :
  C3_heap !! 2%nat = Some (mkCell PSINodeType.CLASS "A" (Some 1%nat) [])
  /\ removeNode C3_heap (Some 2%nat) false
     = Returns
         (<[1%nat := mkCell PSINodeType.NAMESPACE "ns" (Some 0%nat)
                            [3%nat]]> C3_heap).
Proof.
  split; [reflexivity|].
  exact (proj2 (proj2 (removeNode_only_edits_the_parent C3_heap 2%nat
                         (mkCell PSINodeType.CLASS "A" (Some 1%nat) [])
                         false eq_refl))
           1%nat
           (mkCell PSINodeType.NAMESPACE "ns" (Some 0%nat) [2%nat; 3%nat])
           eq_refl eq_refl).
Defined.

Lemma listed_node_occurs (h : Heap) (p node : addr) (cp : Cell) :
  h !! p = Some cp -> node ∈ children_ cp -> (1 <= occurrences h node)%nat.
Proof.
  intros Hcp Hin. unfold occurrences.
  etransitivity;
    [|apply (sum_list_with_in (p, cp)); now apply elem_of_map_to_list].
  cbn [snd].
  destruct (filter (fun x => x = node) (children_ cp)) as [|x xs] eqn:Hf;
    [|cbn; lia].
  assert (Hnode : node ∈ filter (fun x => x = node) (children_ cp))
    by now apply list_elem_of_filter.
  rewrite Hf in Hnode. now apply elem_of_nil in Hnode.
Qed.

Lemma held_node_survives (h : Heap) (held : gset addr) (node : addr) :
  node ∈ held -> erase_frees h held node = false.
Proof.
  intros Hheld. unfold erase_frees.
  destruct (h !! node) as [c|]; [|reflexivity].
  destruct (parent_ c) as [p|]; [|reflexivity].
  destruct (h !! p) as [pc|] eqn:Hp; [|reflexivity].
  destruct (bool_decide (node ∈ children_ pc)) eqn:Hin; [|reflexivity].
  apply bool_decide_eq_true_1 in Hin.
  pose proof (listed_node_occurs h p node pc Hp Hin) as Hocc.
  cbn [andb]. apply bool_decide_eq_false_2.
  unfold use_count. rewrite decide_True by exact Hheld. lia.
Qed.

(** X20. [moveNode] of a node from its parent to another node, when a
    [shared_ptr] outside the tree keeps the node alive: the node leaves
    the children of the old parent, is put at the end of the children of
    the new parent and gets the new parent as parent.  When the entry in
    the old parent's children is the only [shared_ptr] to the node, the
    erase destroys the node and the call then uses the destroyed object.
    A null node or a null new parent changes nothing. *)
Theorem moveNode_relinks
    (h : Heap) (held : gset addr) (node p np : addr) (cn cp cnp : Cell) :
  h !! node = Some cn -> parent_ cn = Some p ->
  h !! p = Some cp -> h !! np = Some cnp ->
  p <> node -> np <> node -> np <> p ->
  moveNode h held None (Some np) = Returns h
  /\ moveNode h held (Some node) None = Returns h
  /\ (node ∈ held ->
      exists h',
        moveNode h held (Some node) (Some np) = Returns h'
        /\ h' !! node = Some (set_parent cn (Some np))
        /\ h' !! np = Some (set_children cnp (children_ cnp ++ [node]))
        /\ h' !! p
           = Some (set_children cp (erase_first node (children_ cp)))
        /\ (forall other,
              other <> node -> other <> p -> other <> np ->
              h' !! other = h !! other))
  /\ (node ∈ children_ cp -> use_count h held node = 1%nat ->
      moveNode h held (Some node) (Some np) = Undefined).
Proof.
  intros Hnode Hp Hcp Hcnp H1 H2 H3.
  split; [reflexivity|]. split; [reflexivity|]. split.
  - intros Hheld. eexists. split.
    + unfold moveNode. rewrite (held_node_survives h held node Hheld).
      unfold removeNode, addChild, setParent, push_back_child,
        getParent, deref, mbind, outcome_bind.
      rewrite Hnode, Hp, Hcp. simplify_map_eq. reflexivity.
    + split; [now simplify_map_eq|]. split; [now simplify_map_eq|].
      split; [now simplify_map_eq|].
      intros other ? ? ?. now simplify_map_eq.
  - intros Hin Hcount. unfold moveNode, erase_frees.
    rewrite Hnode, Hp, Hcp.
    rewrite (bool_decide_eq_true_2 _ Hin), (bool_decide_eq_true_2 _ Hcount).
    unfold removeNode, getParent, deref, mbind, outcome_bind.
    now rewrite Hnode, Hp, Hcp.
Qed.

Lemma moveNode_relinks_witness :
  C3_heap !! 2%nat = Some (mkCell PSINodeType.CLASS "A" (Some 1%nat) [])
  /\ moveNode C3_heap ∅ (Some 2%nat) (Some 0%nat) = Undefined
  /\ exists h',
       moveNode C3_heap {[2%nat]} (Some 2%nat) (Some 0%nat) = Returns h'
       /\ h' !! 0%nat
          = Some (mkCell PSINodeType.FILE "root.cpp" None [1%nat; 2%nat]).
Proof.
  split; [reflexivity|]. split.
  - apply (moveNode_relinks C3_heap ∅ 2%nat 1%nat 0%nat
             (mkCell PSINodeType.CLASS "A" (Some 1%nat) [])
             (mkCell PSINodeType.NAMESPACE "ns" (Some 0%nat) [2%nat; 3%nat])
             (mkCell PSINodeType.FILE "root.cpp" None [1%nat]));
      first [reflexivity | discriminate
            | apply (bool_decide_unpack _); reflexivity].
  - destruct (moveNode_relinks C3_heap {[2%nat]} 2%nat 1%nat 0%nat
                (mkCell PSINodeType.CLASS "A" (Some 1%nat) [])
                (mkCell PSINodeType.NAMESPACE "ns" (Some 0%nat)
                        [2%nat; 3%nat])
                (mkCell PSINodeType.FILE "root.cpp" None [1%nat])
                eq_refl eq_refl eq_refl eq_refl)
      as (_ & _ & Hmove & _); [discriminate..|].
    destruct Hmove as (h' & Hrun & _ & Hnp & _).
    + apply (bool_decide_unpack _). reflexivity.
    + exists h'. split; [exact Hrun|exact Hnp].
Defined.

Lemma getAncestors_loop_two_cycle (h : Heap) (a b : addr) :
  getParent h (Some a) = Returns (Some b) ->
  getParent h (Some b) = Returns (Some a) ->
  forall fuel cur acc,
    cur = a \/ cur = b ->
    getAncestors_loop fuel h (Some cur) acc = OutOfFuel.
Proof.
  intros Ha Hb. induction fuel as [|fuel IH]; intros cur acc Hcur.
  - reflexivity.
  - cbn [getAncestors_loop]. destruct Hcur as [-> | ->].
    + rewrite Ha. cbn. apply IH. now right.
    + rewrite Hb. cbn. apply IH. now left.
Qed.

(** X21. [moveNode] does not look whether the new parent lies below the
    node.  Moving a node that a [shared_ptr] outside the tree keeps alive
    under one of its own children leaves the two as each other's parent;
    the loop of [getAncestors] on either of them then goes round the two
    and no number of iterations brings it to a null parent. *)
Theorem moveNode_under_own_child_makes_a_cycle
    (h : Heap) (held : gset addr) (node child : addr) (cn cc : Cell) :
  h !! node = Some cn -> h !! child = Some cc ->
  parent_ cc = Some node -> child <> node ->
  (forall p, parent_ cn = Some p -> is_Some (h !! p)) ->
  node ∈ held ->
  exists h',
    moveNode h held (Some node) (Some child) = Returns h'
    /\ getParent h' (Some node) = Returns (Some child)
    /\ getParent h' (Some child) = Returns (Some node)
    /\ forall fuel,
         getAncestors fuel h' (Some node) = OutOfFuel
         /\ getAncestors fuel h' (Some child) = OutOfFuel.
Proof.
  intros Hnode Hchild Hpc Hne Hpar Hheld.
  assert (Hrem : exists h1 cn1 cc1,
             removeNode h (Some node) false = Returns h1
             /\ h1 !! node = Some cn1 /\ h1 !! child = Some cc1
             /\ parent_ cc1 = Some node).
  { destruct (parent_ cn) as [p|] eqn:Hp.
    - destruct (Hpar p eq_refl) as [cp Hcp].
      assert (Hn1 : exists cn1,
                 (<[p := set_children cp
                            (erase_first node (children_ cp))]> h)
                 !! node = Some cn1).
      { destruct (decide (p = node)) as [Heq|Hpn].
        - rewrite Heq, lookup_insert_eq. eauto.
        - rewrite lookup_insert_ne by exact Hpn. eauto. }
      assert (Hc1 : exists cc1,
                 (<[p := set_children cp
                            (erase_first node (children_ cp))]> h)
                 !! child = Some cc1 /\ parent_ cc1 = Some node).
      { destruct (decide (p = child)) as [Heq|Hpc'].
        - rewrite Heq, lookup_insert_eq. eexists. split; [reflexivity|].
          cbn. rewrite Heq, Hchild in Hcp. now simplify_eq.
        - rewrite lookup_insert_ne by exact Hpc'. eauto. }
      destruct Hn1 as [cn1 Hn1]. destruct Hc1 as (cc1 & Hc1 & Hpc1).
      exists (<[p := set_children cp (erase_first node (children_ cp))]> h),
             cn1, cc1.
      split; [|now repeat split].
      unfold removeNode, getParent, deref, mbind, outcome_bind.
      now rewrite Hnode, Hp, Hcp.
    - exists h, cn, cc. split; [|now repeat split].
      unfold removeNode, getParent, deref, mbind, outcome_bind.
      now rewrite Hnode, Hp. }
  destruct Hrem as (h1 & cn1 & cc1 & Hrun & Hn1 & Hc1 & Hpc1).
  set (h' := <[child := set_children cc1 (children_ cc1 ++ [node])]>
               (<[node := set_parent cn1 (Some child)]> h1)).
  assert (Hpn' : getParent h' (Some node) = Returns (Some child)).
  { unfold getParent, deref, mbind, outcome_bind, h'.
    rewrite lookup_insert_ne by congruence.
    now rewrite lookup_insert_eq. }
  assert (Hpc' : getParent h' (Some child) = Returns (Some node)).
  { unfold getParent, deref, mbind, outcome_bind, h'.
    rewrite lookup_insert_eq. cbn. now rewrite Hpc1. }
  exists h'. split; [|split; [exact Hpn'|split; [exact Hpc'|]]].
  - unfold moveNode. rewrite Hrun, (held_node_survives h held node Hheld).
    cbn.
    unfold addChild, setParent, push_back_child, mbind, outcome_bind.
    rewrite Hn1. rewrite lookup_insert_ne by congruence.
    now rewrite Hc1.
  - intros fuel. unfold getAncestors. rewrite Hpn', Hpc'. cbn. split.
    + now rewrite (getAncestors_loop_two_cycle h' node child Hpn' Hpc')
        by now right.
    + now rewrite (getAncestors_loop_two_cycle h' node child Hpn' Hpc')
        by now left.
Qed.

Lemma moveNode_under_own_child_makes_a_cycle_witness :
  C3_heap !! 1%nat
  = Some (mkCell PSINodeType.NAMESPACE "ns" (Some 0%nat) [2%nat; 3%nat])
  /\ exists h',
       moveNode C3_heap {[1%nat]} (Some 1%nat) (Some 2%nat) = Returns h'
       /\ getAncestors 1000 h' (Some 1%nat) = OutOfFuel.
Proof.
  split; [reflexivity|].
  destruct (moveNode_under_own_child_makes_a_cycle C3_heap {[1%nat]}
              1%nat 2%nat
              (mkCell PSINodeType.NAMESPACE "ns" (Some 0%nat)
                      [2%nat; 3%nat])
              (mkCell PSINodeType.CLASS "A" (Some 1%nat) []))
    as (h' & Hrun & _ & _ & Hloop).
  - reflexivity.
  - reflexivity.
  - reflexivity.
  - discriminate.
  - intros p [= <-]. now eexists.
  - apply (bool_decide_unpack _). reflexivity.
  - exists h'. split; [exact Hrun|apply Hloop].
Defined.

Lemma getAncestors_loop_acc (h : Heap) (fuel : nat) :
  forall current acc,
    getAncestors_loop fuel h current acc
    = match getAncestors_loop fuel h current [] with
      | Returns l => Returns (acc ++ l)
      | Undefined => Undefined
      | OutOfFuel => OutOfFuel
      end.
Proof.
  induction fuel as [|fuel IH]; intros [a|] acc; cbn [getAncestors_loop];
    try reflexivity; try now rewrite app_nil_r.
  destruct (getParent h (Some a)) as [next| |]; cbn; try reflexivity.
  rewrite (IH next (acc ++ [a])), (IH next [a]).
  destruct (getAncestors_loop fuel h next []); try reflexivity.
  now rewrite <- app_assoc.
Qed.

Lemma getAncestors_step (h : Heap) (fuel : nat) (node p : addr) (c : Cell) :
  h !! node = Some c -> parent_ c = Some p ->
  getAncestors (S fuel) h (Some node)
  = (l ← getAncestors fuel h (Some p); Returns (l ++ [p])).
Proof.
  intros Hnode Hp. unfold getAncestors at 1.
  unfold getParent at 1. unfold deref, mbind, outcome_bind.
  rewrite Hnode, Hp. cbn [getAncestors_loop].
  unfold getAncestors, mbind, outcome_bind.
  destruct (getParent h (Some p)) as [next| |]; try reflexivity.
  rewrite (getAncestors_loop_acc h fuel next ([] ++ [p])).
  destruct (getAncestors_loop fuel h next []) as [l| |]; try reflexivity.
  cbn [app]. now rewrite reverse_cons.
Qed.

Lemma getAncestors_root (h : Heap) (fuel : nat) (node : addr) (c : Cell) :
  h !! node = Some c -> parent_ c = None ->
  getAncestors fuel h (Some node) = Returns [].
Proof.
  intros Hnode Hp. unfold getAncestors, getParent, deref, mbind, outcome_bind.
  rewrite Hnode, Hp. now destruct fuel.
Qed.

Lemma getAncestors_inv (h : Heap) (fuel : nat) (node : addr)
    (l : list addr) :
  getAncestors fuel h (Some node) = Returns l ->
  exists c,
    h !! node = Some c
    /\ (parent_ c = None /\ l = []
        \/ exists p fuel' l',
             parent_ c = Some p /\ fuel = S fuel'
             /\ getAncestors fuel' h (Some p) = Returns l'
             /\ l = l' ++ [p]).
Proof.
  intros Hrun.
  destruct (h !! node) as [c|] eqn:Hnode.
  2:{ unfold getAncestors, getParent, deref, mbind, outcome_bind in Hrun.
      now rewrite Hnode in Hrun. }
  exists c. split; [reflexivity|].
  destruct (parent_ c) as [p|] eqn:Hp.
  - right. destruct fuel as [|fuel'].
    + unfold getAncestors, getParent, deref, mbind, outcome_bind in Hrun.
      rewrite Hnode, Hp in Hrun. discriminate.
    + rewrite (getAncestors_step h fuel' node p c Hnode Hp) in Hrun.
      destruct (getAncestors fuel' h (Some p)) as [l'| |] eqn:Hl';
        try discriminate.
      cbn in Hrun. injection Hrun as <-. exists p, fuel', l'. auto.
  - left. split; [reflexivity|].
    rewrite (getAncestors_root h fuel node c Hnode Hp) in Hrun. congruence.
Qed.

Lemma getAncestors_more_fuel (h : Heap) (fuel : nat) :
  forall node l,
    getAncestors fuel h (Some node) = Returns l ->
    getAncestors (S fuel) h (Some node) = Returns l.
Proof.
  induction fuel as [|fuel IH]; intros node l Hrun;
    destruct (getAncestors_inv _ _ _ _ Hrun)
      as (c & Hnode & [[Hp ->] | (p & fuel' & l' & Hp & Hf & Hl' & ->)]).
  - now apply (getAncestors_root h _ node c).
  - discriminate.
  - now apply (getAncestors_root h _ node c).
  - injection Hf as <-.
    rewrite (getAncestors_step h (S fuel) node p c Hnode Hp).
    now rewrite (IH p l' Hl').
Qed.

(** X22. The ancestors of a node without parent are none; the ancestors
    of a node with a parent are the ancestors of the parent followed by
    the parent, so the vector runs from the root down to the parent and
    never has the node itself. *)
Theorem getAncestors_extends_the_parents
    (h : Heap) (node : addr) (c : Cell) :
  h !! node = Some c ->
  (parent_ c = None ->
   forall fuel, getAncestors fuel h (Some node) = Returns [])
  /\ (forall p fuel l,
        parent_ c = Some p ->
        getAncestors fuel h (Some p) = Returns l ->
        getAncestors (S fuel) h (Some node) = Returns (l ++ [p])).
Proof.
  intros Hnode. split.
  - intros Hp fuel. now apply (getAncestors_root h fuel node c).
  - intros p fuel l Hp Hl.
    now rewrite (getAncestors_step h fuel node p c Hnode Hp), Hl.
Qed.

Lemma getAncestors_extends_the_parents_witness :
  C3_heap !! 2%nat = Some (mkCell PSINodeType.CLASS "A" (Some 1%nat) [])
  /\ getAncestors 2 C3_heap (Some 2%nat) = Returns [0%nat; 1%nat].
Proof.
  split; [reflexivity|].
  exact (proj2 (getAncestors_extends_the_parents C3_heap 2%nat
                  (mkCell PSINodeType.CLASS "A" (Some 1%nat) []) eq_refl)
           1%nat 1%nat [0%nat] eq_refl eq_refl).
Defined.

Lemma next_after_first (this : addr) (pre post : list addr) :
  this ∉ pre -> next_after this (pre ++ this :: post) = head post.
Proof.
  induction pre as [|x pre IH]; intros Hnot; cbn.
  - rewrite decide_True by reflexivity. now destruct post.
  - rewrite decide_False.
    + apply IH. intros Hin. apply Hnot. now apply list_elem_of_further.
    + intros ->. apply Hnot. apply list_elem_of_here.
Qed.

Lemma prev_before_first (this : addr) (pre post : list addr) :
  this ∉ pre ->
  forall prev,
    prev_before this prev (pre ++ this :: post)
    = match last pre with Some x => Some x | None => prev end.
Proof.
  induction pre as [|x pre IH]; intros Hnot prev; cbn [app prev_before].
  - now rewrite decide_True by reflexivity.
  - rewrite decide_False.
    + rewrite IH.
      * destruct pre as [|y pre']; [reflexivity|].
        rewrite last_cons_cons.
        destruct (last (y :: pre')) eqn:Hlast; [reflexivity|].
        now apply last_None in Hlast.
      * intros Hin. apply Hnot. now apply list_elem_of_further.
    + intros ->. apply Hnot. apply list_elem_of_here.
Qed.

(** X23. The siblings of a node are looked up at the first place where
    the parent lists the node: [getNextSibling] is the entry after that
    place, [getPrevSibling] the entry before it, and each is null at the
    end of the vector.  A node without parent has neither. *)
Theorem siblings_around_first_occurrence
    (h : Heap) (this : addr) (c : Cell) :
  h !! this = Some c ->
  (parent_ c = None ->
   getNextSibling h this = Returns None
   /\ getPrevSibling h this = Returns None)
  /\ (forall p cp pre post,
        parent_ c = Some p -> h !! p = Some cp ->
        children_ cp = pre ++ this :: post -> this ∉ pre ->
        getNextSibling h this = Returns (head post)
        /\ getPrevSibling h this = Returns (last pre))
  /\ (forall p cp,
        parent_ c = Some p -> h !! p = Some cp ->
        this ∉ children_ cp ->
        getNextSibling h this = Returns None
        /\ getPrevSibling h this = Returns None).
Proof.
  intros Hthis. split; [|split].
  - intros Hp.
    unfold getNextSibling, getPrevSibling, deref, mbind, outcome_bind.
    now rewrite Hthis, Hp.
  - intros p cp pre post Hp Hcp Hch Hnot.
    unfold getNextSibling, getPrevSibling, getChildren, deref, mbind,
      outcome_bind.
    rewrite Hthis, Hp, Hcp, Hch.
    rewrite (next_after_first this pre post Hnot).
    rewrite (prev_before_first this pre post Hnot None).
    split; [reflexivity|]. now destruct (last pre).
  - intros p cp Hp Hcp Hnot.
    unfold getNextSibling, getPrevSibling, getChildren, deref, mbind,
      outcome_bind.
    rewrite Hthis, Hp, Hcp.
    assert (Hn : forall l, this ∉ l -> next_after this l = None).
    { induction l as [|x l IH]; intros Hl; [reflexivity|]. cbn.
      rewrite decide_False.
      - apply IH. intros Hin. apply Hl. now apply list_elem_of_further.
      - intros ->. apply Hl. apply list_elem_of_here. }
    assert (Hq : forall l prev, this ∉ l -> prev_before this prev l = None).
    { induction l as [|x l IH]; intros prev Hl; [reflexivity|]. cbn.
      rewrite decide_False.
      - apply IH. intros Hin. apply Hl. now apply list_elem_of_further.
      - intros ->. apply Hl. apply list_elem_of_here. }
    now rewrite Hn, Hq.
Qed.

Lemma siblings_around_first_occurrence_witness :
  C3_heap !! 2%nat = Some (mkCell PSINodeType.CLASS "A" (Some 1%nat) [])
  /\ getNextSibling C3_heap 2%nat = Returns (Some 3%nat)
  /\ getPrevSibling C3_heap 2%nat = Returns None.
Proof.
  split; [reflexivity|].
  apply (proj1 (proj2 (siblings_around_first_occurrence C3_heap 2%nat
                         (mkCell PSINodeType.CLASS "A" (Some 1%nat) [])
                         eq_refl))
           1%nat
           (mkCell PSINodeType.NAMESPACE "ns" (Some 0%nat) [2%nat; 3%nat])
           [] [3%nat] eq_refl eq_refl eq_refl).
  apply not_elem_of_nil.
Defined.

Lemma common_loop_sym (l1 : list addr) :
  forall l2 common, common_loop l1 l2 common = common_loop l2 l1 common.
Proof.
  induction l1 as [|a1 l1 IH]; intros [|a2 l2] common; cbn; try reflexivity.
  destruct (decide (a1 = a2)) as [->|Hne].
  - rewrite decide_True by reflexivity. apply IH.
  - now rewrite decide_False by congruence.
Qed.

Lemma common_loop_prefix (l : list addr) :
  forall rest common,
    common_loop (l ++ rest) l common
    = match last l with Some x => Some x | None => common end.
Proof.
  induction l as [|a l IH]; intros rest common.
  - now destruct rest.
  - cbn [app common_loop]. rewrite decide_True by reflexivity.
    rewrite IH. destruct l as [|b l']; [reflexivity|].
    rewrite last_cons_cons.
    destruct (last (b :: l')) eqn:Hlast; [reflexivity|].
    now apply last_None in Hlast.
Qed.

Lemma getAncestors_last (h : Heap) (fuel : nat) (node : addr)
    (l : list addr) :
  getAncestors fuel h (Some node) = Returns l ->
  getParent h (Some node) = Returns (last l).
Proof.
  intros Hrun.
  destruct (getAncestors_inv _ _ _ _ Hrun)
    as (c & Hnode & [[Hp ->] | (p & fuel' & l' & Hp & _ & _ & ->)]);
    unfold getParent, deref, mbind, outcome_bind; rewrite Hnode, Hp.
  - reflexivity.
  - now rewrite last_snoc.
Qed.

(** X24. [findCommonAncestor] compares the two ancestor vectors from the
    root, and a node is not in its own vector.  So the answer does not
    depend on the order of the two nodes, the common ancestor of a node
    with itself is its parent, and the common ancestor of a node and its
    parent is the parent of the parent. *)
Theorem findCommonAncestor_is_above_both
    (h : Heap) (fuel : nat) (a b : addr) (la lb : list addr) :
  getAncestors fuel h (Some a) = Returns la ->
  getAncestors fuel h (Some b) = Returns lb ->
  findCommonAncestor fuel h (Some a) (Some b)
  = findCommonAncestor fuel h (Some b) (Some a)
  /\ findCommonAncestor fuel h (Some a) (Some a) = getParent h (Some a)
  /\ (getParent h (Some a) = Returns (Some b) ->
      findCommonAncestor fuel h (Some a) (Some b) = getParent h (Some b)).
Proof.
  intros Ha Hb. unfold findCommonAncestor. rewrite Ha, Hb.
  unfold mbind, outcome_bind.
  split; [|split].
  - now rewrite common_loop_sym.
  - rewrite (getAncestors_last _ _ _ _ Ha).
    rewrite <- (app_nil_r la) at 1. rewrite common_loop_prefix.
    now destruct (last la).
  - intros Hpar.
    destruct (getAncestors_inv _ _ _ _ Ha)
      as (c & Hnode & [[Hp ->] | (p & fuel' & l' & Hp & Hf & Hl' & ->)]).
    + unfold getParent, deref, mbind, outcome_bind in Hpar.
      rewrite Hnode, Hp in Hpar. discriminate.
    + unfold getParent, deref, mbind, outcome_bind in Hpar.
      rewrite Hnode, Hp in Hpar. injection Hpar as ->. subst fuel.
      apply getAncestors_more_fuel in Hl'. rewrite Hl' in Hb.
      injection Hb as <-.
      rewrite common_loop_prefix.
      rewrite (getAncestors_last _ _ _ _ Hl').
      now destruct (last l').
Qed.

Lemma findCommonAncestor_is_above_both_witness :
  getAncestors 4 C3_heap (Some 2%nat) = Returns [0%nat; 1%nat]
  /\ getAncestors 4 C3_heap (Some 1%nat) = Returns [0%nat]
  /\ findCommonAncestor 4 C3_heap (Some 2%nat) (Some 1%nat)
     = Returns (Some 0%nat).
Proof.
  split; [reflexivity|]. split; [reflexivity|].
  exact (proj2 (proj2 (findCommonAncestor_is_above_both C3_heap 4
                         2%nat 1%nat [0%nat; 1%nat] [0%nat]
                         eq_refl eq_refl))
           eq_refl).
Defined.

Lemma join_path_snoc (parts : list string) (part : string) :
  parts <> [] ->
  join_path (parts ++ [part]) = join_path parts +:+ String slash part.
Proof.
  induction parts as [|x parts IH]; intros Hne; [congruence|].
  destruct parts as [|y parts']; [reflexivity|].
  change (join_path ((x :: y :: parts') ++ [part]))
    with (x +:+ String slash (join_path ((y :: parts') ++ [part]))).
  rewrite IH by discriminate.
  change (join_path (x :: y :: parts'))
    with (x +:+ String slash (join_path (y :: parts'))).
  now rewrite string_app_assoc, string_app_cons.
Qed.

(** X25. The path [getNodePath] gives a node is the texts of its
    ancestors, from the root down, and then its own text, with one slash
    between two texts and none in front. *)
Theorem getNodePath_joins_the_ancestors (h : Heap) (fuel : nat) :
  forall (node : addr) (l : list addr),
    getAncestors fuel h (Some node) = Returns l ->
    getNodePath (S fuel) h (Some node)
    = Returns (join_path (List.map (text_at h) (l ++ [node]))).
Proof.
  induction fuel as [|fuel IH]; intros node l Hrun;
    destruct (getAncestors_inv _ _ _ _ Hrun)
      as (c & Hnode & [[Hp ->] | (p & fuel' & l' & Hp & Hf & Hl' & ->)]);
    try discriminate.
  - unfold getNodePath. cbn [buildNodePath].
    unfold deref, mbind, outcome_bind, text_at. rewrite Hnode, Hp. cbn.
    now rewrite Hnode.
  - unfold getNodePath. cbn [buildNodePath].
    unfold deref, mbind, outcome_bind, text_at. rewrite Hnode, Hp. cbn.
    now rewrite Hnode.
  - injection Hf as <-. specialize (IH p l' Hl').
    unfold getNodePath in *.
    change (buildNodePath (S (S fuel)) h (Some node) "")
      with (c0 ← deref h (Some node);
            path ← match parent_ c0 with
                    | Some _ =>
                        path ← buildNodePath (S fuel) h (parent_ c0) "";
                        Returns (path +:+ "/")
                    | None => Returns ""
                    end;
            Returns (path +:+ text_ c0)).
    unfold deref at 1. unfold mbind at 1 2. unfold outcome_bind at 1 2.
    rewrite Hnode, Hp, IH. cbn [mbind outcome_bind].
    assert (Hne : List.map (text_at h) (l' ++ [p]) <> []).
    { rewrite map_app. now destruct (List.map (text_at h) l'). }
    f_equal. rewrite (map_app _ (l' ++ [p]) [node]).
    change (List.map (text_at h) [node]) with [text_at h node].
    rewrite (join_path_snoc _ _ Hne), string_app_assoc.
    replace (text_at h node) with (text_ c)
      by (unfold text_at; now rewrite Hnode).
    reflexivity.
Qed.

Lemma getNodePath_joins_the_ancestors_witness :
  getAncestors 2 C3_heap (Some 2%nat) = Returns [0%nat; 1%nat]
  /\ getNodePath 3 C3_heap (Some 2%nat) = Returns "root.cpp/ns/A".
Proof.
  split; [reflexivity|].
  exact (getNodePath_joins_the_ancestors C3_heap 2 2%nat [0%nat; 1%nat]
           eq_refl).
Defined.







End NodeObjects.

(* ===================================================================== *)
(** ** The children of one node; the index; line numbers; statistics *)
(* ===================================================================== *)

Lemma List_filter_reverse {A : Type} (p : A -> bool) (l : list A) :
  List.filter p (reverse l) = reverse (List.filter p l).
Proof.
  induction l as [|x l IH]; [reflexivity|].
  rewrite reverse_cons, List.filter_app, IH. cbn [List.filter].
  destruct (p x); [now rewrite reverse_cons | now rewrite app_nil_r].
Qed.

(** X27. [findChildren] returns the children of the type in their order;
    [findFirstChild] is the first of them and [findLastChild] the last,
    each null when there is none; [getFirstChild] and [getLastChild] are
    the two ends of the children vector. *)
Theorem findChildren_first_and_last (n : PSINode) (type : PSINodeType.t) :
  findChildren n type
  = List.filter (fun c => bool_decide (getType c = type)) (children_ n)
  /\ findFirstChild n type = head (findChildren n type)
  /\ findLastChild n type = last (findChildren n type)
  /\ getFirstChild n = head (children_ n)
  /\ getLastChild n = last (children_ n).
Proof.
  assert (Hall : findChildren n type
                 = List.filter (fun c => bool_decide (getType c = type))
                     (children_ n)).
  { unfold findChildren.
    assert (Hfold : forall cs acc,
               fold_left
                 (fun result child =>
                    if decide (getType child = type)
                    then result ++ [child] else result) cs acc
               = acc ++ List.filter
                          (fun c => bool_decide (getType c = type)) cs).
    { induction cs as [|x xs IH]; intros acc; cbn.
      - now rewrite app_nil_r.
      - rewrite IH. destruct (decide (getType x = type)) as [He|He].
        + rewrite bool_decide_eq_true_2 by exact He.
          now rewrite <- app_assoc.
        + now rewrite bool_decide_eq_false_2 by exact He. }
    apply Hfold. }
  assert (Hloop : forall cs,
             (fix loop (cs : list PSINode) : option PSINode :=
                match cs with
                | [] => None
                | child :: cs' =>
                    if decide (getType child = type) then Some child
                    else loop cs'
                end) cs
             = head (List.filter (fun c => bool_decide (getType c = type))
                       cs)).
  { induction cs as [|x xs IH]; [reflexivity|]. cbn.
    destruct (decide (getType x = type)) as [He|He].
    - now rewrite bool_decide_eq_true_2 by exact He.
    - now rewrite bool_decide_eq_false_2 by exact He. }
  split; [exact Hall|]. rewrite Hall. split; [apply Hloop|]. split.
  - unfold findLastChild. rewrite Hloop, List_filter_reverse.
    apply head_reverse.
  - split; unfold getFirstChild, getLastChild; now destruct (children_ n).
Qed.

Lemma List_filter_sublist {A : Type} (p : A -> bool) (l : list A) :
  sublist (List.filter p l) l.
Proof.
  induction l as [|x l IH]; cbn; [constructor|].
  destruct (p x); now constructor.
Qed.

Lemma indexed_new : indexed new_StubIndex.
Proof. now repeat split. Qed.

(** X28. An index built by [addEntry] calls has as [size] the number of
    entries added that were not null, and is [empty] exactly when there
    were none.  Whatever the filter, [query] returns some of the added
    entries in the order they were added, each at most as often as it was
    added.  After [clear] the index is a new one: its size is 0 and every
    query returns nothing. *)
Theorem query_returns_added_entries
    (entries : list (option StubEntry)) (filter : QueryFilter) :
  let idx := index_of entries in
  size idx = length (omap id entries)
  /\ (empty idx = true <-> omap id entries = [])
  /\ sublist (query idx filter) (omap id entries)
  /\ size (clear idx) = 0%nat
  /\ empty (clear idx) = true
  /\ query (clear idx) filter = []
  /\ (forall more, fold_left addEntry more (clear idx) = index_of more).
Proof.
  intros idx.
  destruct (fold_addEntry entries new_StubIndex indexed_new)
    as [(Hname & Htype & Hfile) Hall].
  fold (index_of entries) in Hname, Htype, Hfile, Hall. fold idx in Hall.
  cbn [app all_entries_ new_StubIndex] in Hall.
  split; [unfold size; now rewrite Hall|]. split.
  { unfold empty. rewrite Hall. now destruct (omap id entries). }
  split.
  { rewrite query_follows_precedence. unfold query_by_precedence.
    rewrite <- Hall.
    destruct (decide _); [|destruct (decide _); [|destruct (decide _)]].
    - etransitivity; [apply List_filter_sublist|].
      fold idx in Hname. rewrite Hname. apply List_filter_sublist.
    - etransitivity; [apply List_filter_sublist|].
      fold idx in Htype. rewrite Htype. apply List_filter_sublist.
    - fold idx in Hfile. rewrite Hfile. apply List_filter_sublist.
    - reflexivity. }
  split; [reflexivity|]. split; [reflexivity|]. split; [|reflexivity].
  rewrite query_follows_precedence. unfold query_by_precedence.
  destruct (decide _); [|destruct (decide _); [|destruct (decide _)]];
    reflexivity.
Qed.

Lemma getLineNumber_loop (s : string) :
  forall (i : nat) (line : Z),
    - 2 ^ 31 <= line -> line + Z.of_nat i < 2 ^ 31 ->
    (fix loop (s : string) (i : nat) (line : Z) : Z :=
       match i, s with
       | S i', String c s' =>
           loop s' i'
             (if Ascii.eqb c newline then wrap_int (line + 1) else line)
       | _, _ => line
       end) s i line
    = line + Z.of_nat (newlines_before s i).
Proof.
  unfold newlines_before.
  induction s as [|c s IH]; intros [|i] line Hlo Hhi; cbn; try lia.
  rewrite (Ascii.eqb_sym newline c).
  destruct (Ascii.eqb c newline).
  - rewrite IH; rewrite wrap_int_id by lia; cbn [length]; lia.
  - rewrite IH; lia.
Qed.

(** X29. [getLineNumber] gives 1 for a position at or past the end of the
    code, whatever the code holds; for a position inside the code it gives
    1 plus the number of line feeds before the position. *)
Theorem getLineNumber_counts_line_feeds (code : string) (pos : nat) :
  ((String.length code <= pos)%nat -> getLineNumber code pos = 1)
  /\ ((pos < String.length code)%nat ->
      Z.of_nat pos < 2 ^ 31 - 1 ->
      getLineNumber code pos = 1 + Z.of_nat (newlines_before code pos)).
Proof.
  unfold getLineNumber. split.
  - intros Hle. now rewrite decide_True by exact Hle.
  - intros Hlt Hpos. rewrite decide_False by lia.
    apply getLineNumber_loop; lia.
Qed.

Lemma getLineNumber_counts_line_feeds_witness :
  getLineNumber ("a" +:+ String newline "b") 3 = 1
  /\ getLineNumber ("a" +:+ String newline "b") 2 = 2.
Proof.
  split.
  - apply (proj1 (getLineNumber_counts_line_feeds
                    ("a" +:+ String newline "b") 3)).
    vm_compute. lia.
  - apply (proj2 (getLineNumber_counts_line_feeds
                    ("a" +:+ String newline "b") 2));
      vm_compute; first [lia | reflexivity].
Defined.

Lemma reached_unfold (n : PSINode) :
  reached n
  = match node_class n with
    | PSINodeBase => []
    | _ => n :: flat_map reached (children_ n)
    end.
Proof. destruct n as [[] ty tx l r si ch]; reflexivity. Qed.

Lemma statistics_own_counters (n : PSINode) (s : Statistics) :
  node_class n <> PSINodeBase ->
  exists s1,
    accept StatisticsVisitor n s = visit_children StatisticsVisitor n s1
    /\ forall c,
         - 2 ^ 31 <= s c < 2 ^ 31 - 1 ->
         s1 c = s c + (if tallies c n then 1 else 0).
Proof.
  intros Hclass. rewrite accept_unfold. unfold tallies.
  destruct n as [cl ty tx l r si ch]. cbn [node_class] in *.
  destruct cl as [|fp ct|nm|nm st ab|nm rt ps vi st co ov|nm vt co st me pa];
    [contradiction|..];
    cbn [visitFile visitNamespace visitClass visitFunction visitVariable
         visitNode StatisticsVisitor node_class];
    (eexists; split; [reflexivity|]);
    intros c Hc; unfold incr_if, incr;
    repeat match goal with b : bool |- _ => destruct b end;
    destruct c; cbn -[wrap_int Z.add Z.pow];
    repeat match goal with
           | |- context [decide (?a = ?b)] =>
               destruct (decide (a = b)) as [?|?];
               [try discriminate | try congruence]
           end;
    rewrite ?wrap_int_id by lia; lia.
Qed.

Lemma tally_le_length (c : StatisticsCounter) (l : list PSINode) :
  (length (List.filter (tallies c) l) <= length l)%nat.
Proof.
  induction l as [|x l IH]; cbn; [lia|].
  destruct (tallies c x); cbn; lia.
Qed.

Lemma statistics_accept (n : PSINode) :
  forall s : Statistics,
    (forall c, - 2 ^ 31 <= s c
               /\ s c + Z.of_nat (length (reached n)) < 2 ^ 31) ->
    forall c,
      accept StatisticsVisitor n s c
      = s c + Z.of_nat (length (List.filter (tallies c) (reached n))).
Proof.
  induction n as [cl ty tx l r si ch IH] using PSINode_tree_ind.
  intros s Hs c.
  set (n := mkPSINode cl ty tx l r si ch) in *.
  assert (Hcases : cl = PSINodeBase \/ cl <> PSINodeBase)
    by (destruct cl; [now left|now right..]).
  destruct Hcases as [->|Hcl].
  { cbn. lia. }
  destruct (statistics_own_counters n s Hcl) as (s1 & -> & Hs1).
  assert (Hreach : reached n = n :: flat_map reached ch).
  { rewrite reached_unfold. subst n. cbn [node_class children_].
    now destruct cl. }
  rewrite Hreach in *. cbn [length] in Hs.
  assert (Hfold : forall cs,
             Forall (fun child =>
                       forall s : Statistics,
                         (forall c, - 2 ^ 31 <= s c
                                    /\ s c + Z.of_nat (length (reached child))
                                       < 2 ^ 31) ->
                         forall c,
                           accept StatisticsVisitor child s c
                           = s c + Z.of_nat
                                     (length (List.filter (tallies c)
                                                (reached child)))) cs ->
             forall s : Statistics,
               (forall c, - 2 ^ 31 <= s c
                          /\ s c + Z.of_nat (length (flat_map reached cs))
                             < 2 ^ 31) ->
               forall c,
                 fold_left
                   (fun s child => visit StatisticsVisitor (Some child) s)
                   cs s c
                 = s c + Z.of_nat
                           (length (List.filter (tallies c)
                                      (flat_map reached cs)))).
  { clear. induction cs as [|x xs IHxs]; intros Hall s Hs c.
    - cbn. lia.
    - apply Forall_cons in Hall as [Hx Hxs].
      cbn [fold_left flat_map].
      change (visit StatisticsVisitor (Some x) s)
        with (accept StatisticsVisitor x s).
      cbn [flat_map] in Hs. setoid_rewrite length_app in Hs.
      assert (Hx' : forall c,
                 accept StatisticsVisitor x s c
                 = s c + Z.of_nat (length (List.filter (tallies c)
                                             (reached x)))).
      { apply Hx. intros c'. specialize (Hs c'). lia. }
      rewrite (IHxs Hxs).
      + rewrite Hx', List.filter_app, length_app. lia.
      + intros c'. rewrite Hx'. specialize (Hs c').
        pose proof (tally_le_length c' (reached x)). lia. }
  unfold visit_children. change (children_ n) with ch.
  rewrite (Hfold ch IH).
  - rewrite Hs1 by (specialize (Hs c); lia).
    cbn [List.filter]. destruct (tallies c n); cbn [length]; lia.
  - intros c'. specialize (Hs c').
    rewrite Hs1 by lia. destruct (tallies c' n); lia.
Qed.

(** X30. After [visit] on a tree each counter of a [StatisticsVisitor]
    has grown by the number of reached nodes it is for (as long as no
    counter passes the largest [int]): the total by all reached nodes, the
    class counter by the class nodes, the struct counter by those among
    them that are structs, and so on.  A node object of the base class is
    not counted, and nothing below it is.  After [reset], or on a new
    visitor, the counters are these numbers. *)
Theorem StatisticsVisitor_counts_reached_nodes
    (root : PSINode) (s : Statistics) :
  ((forall c, - 2 ^ 31 <= s c
              /\ s c + Z.of_nat (length (reached root)) < 2 ^ 31) ->
   forall c,
     visit StatisticsVisitor (Some root) s c
     = s c + Z.of_nat (length (List.filter (tallies c) (reached root))))
  /\ (Z.of_nat (length (reached root)) < 2 ^ 31 ->
      forall c,
        visit StatisticsVisitor (Some root) (reset s) c
        = Z.of_nat (length (List.filter (tallies c) (reached root))))
  /\ (node_class root = PSINodeBase ->
      forall c, visit StatisticsVisitor (Some root) s c = s c)
  /\ (forall c, visit StatisticsVisitor None s c = s c).
Proof.
  split; [|split; [|split]].
  - intros Hs c.
    change (visit StatisticsVisitor (Some root) s)
      with (accept StatisticsVisitor root s).
    now apply statistics_accept.
  - intros Hlen c.
    change (visit StatisticsVisitor (Some root) (reset s))
      with (accept StatisticsVisitor root (reset s)).
    rewrite statistics_accept.
    + reflexivity.
    + intros c'. unfold reset. lia.
  - intros Hbase c.
    change (visit StatisticsVisitor (Some root) s)
      with (accept StatisticsVisitor root s).
    rewrite accept_unfold. now rewrite Hbase.
  - reflexivity.
Qed.

Lemma StatisticsVisitor_counts_reached_nodes_witness :
  Z.of_nat (length (reached C7_file_tree)) < 2 ^ 31
  /\ visit StatisticsVisitor (Some C7_file_tree)
           (reset new_StatisticsVisitor) class_count_
     = Z.of_nat (length (List.filter (tallies class_count_)
                           (reached C7_file_tree))).
Proof.
  split; [reflexivity|].
  apply (proj1 (proj2 (StatisticsVisitor_counts_reached_nodes
                         C7_file_tree new_StatisticsVisitor))).
  reflexivity.
Defined.
